(** * Fixpoint on a function body

    A shallow embedding of
    [analyzer/src/analysis/value/interprocedural/function_fixpoint.cpp]:
    the [FunctionFixpoint] class, its two constructors, the policy hooks it
    gives to the generic forward fixpoint iterator, and the two passes
    [run] and [run_checks].

    Conventions.
    - Pointers into the intermediate representation ([ar::Function*],
      [ar::BasicBlock*], [ar::Statement*], [ar::CallBase*]) are addresses;
      two pointers are equal when the addresses are.
    - [unsigned] is a 32-bit integer, carried as a [Z] with the wrap-around
      of its arithmetic written out.
    - The abstract domain, the statement engine's transfer functions and the
      generic driver are collaborators: they are taken through interfaces.
    - Every call the class makes on a collaborator (logger, checkers,
      statement engine, call engine) is recorded, in program order, in a
      trace of events next to the object state. *)

From Stdlib Require Import ZArith Lia.
From stdpp Require Import base option list strings gmap.

Local Open Scope Z_scope.

(** ** The intermediate representation, as far as this file reads it *)

Module ar.

Definition Function := nat.
Definition BasicBlock := nat.
Definition Statement := nat.
Definition CallBase := nat.

(** [ar::Code]: the blocks in the order [for (bb : *cfg)] visits them, and
    the designated exit block, if any. *)
Record Code := {
  blocks : list BasicBlock;
  exit_block_or_null : option BasicBlock
}.

(** What is reachable from the pointers: [f->body()], the statements of a
    block in the order [for (stmt : *bb)] visits them, and
    [stmt->has_frontend()]. *)
Class Bundle := {
  body : Function -> Code;
  statements : BasicBlock -> list Statement;
  has_frontend : Statement -> bool
}.

End ar.

(** ** Machine integers *)

Definition UINT_BITS : Z := 32.

Definition is_unsigned (z : Z) : Prop := 0 <= z < 2 ^ UINT_BITS.

(** [a + b] on [unsigned]. *)
Definition uint_add (a b : Z) : Z := (a + b) mod 2 ^ UINT_BITS.

(** ** Collaborators *)

(** The lattice operations the class calls on [AbstractDomain], and the
    threshold type of the profiler's hints. The C++ methods update [this]
    in place; here each returns the updated value. *)
Class AbstractDomainOps := {
  AbstractDomain : Type;
  Threshold : Type;
  bottom : AbstractDomain;
  leq : AbstractDomain -> AbstractDomain -> bool;
  join_iter_with : AbstractDomain -> AbstractDomain -> AbstractDomain;
  widen_with : AbstractDomain -> AbstractDomain -> AbstractDomain;
  widen_threshold_with :
    AbstractDomain -> AbstractDomain -> Threshold -> AbstractDomain;
  narrow_with : AbstractDomain -> AbstractDomain -> AbstractDomain;
  narrow_threshold_with :
    AbstractDomain -> AbstractDomain -> Threshold -> AbstractDomain;
  meet_with : AbstractDomain -> AbstractDomain -> AbstractDomain
}.

(** Modelled from the spec: the enumeration [WideningStrategy] is declared
    outside this file. Its valid values are [Widen] and [Join]; a C++
    enumeration can also hold a value that is none of its enumerators, which
    is [Unrecognized]. *)
Module WideningStrategy.
Inductive t := Widen | Join | Unrecognized (raw : Z).
End WideningStrategy.

(** Modelled from the spec: the enumeration [NarrowingStrategy], with valid
    values [Narrow] and [Meet], declared outside this file. *)
Module NarrowingStrategy.
Inductive t := Narrow | Meet | Unrecognized (raw : Z).
End NarrowingStrategy.

(** The fields of the analysis options this file reads. [loop_iterations]
    is an [unsigned], [narrowing_iterations] an optional [unsigned]. *)
Record AnalysisOptions := {
  loop_iterations : Z;
  widening_strategy : WideningStrategy.t;
  narrowing_strategy : NarrowingStrategy.t;
  narrowing_iterations : option Z
}.

(** Modelled from the spec: a call context is the empty context or a parent
    context extended with a call site; the factory interns them, so equal
    contexts are the same context. The class is declared outside this
    file. *)
Inductive CallContext :=
| EmptyContext
| ExtendedContext (parent : CallContext) (call : ar.CallBase).

Module CallContextFactory.
Definition get_empty : CallContext := EmptyContext.
Definition get_context (parent : CallContext) (call : ar.CallBase)
  : CallContext := ExtendedContext parent call.
End CallContextFactory.

(** Modelled from the spec: [empty()] holds of the entry point's context
    only. *)
Definition empty (c : CallContext) : bool :=
  match c with EmptyContext => true | ExtendedContext _ _ => false end.

Module core.
Inductive FixpointIterationKind := Increasing | Decreasing.
End core.

(** A checker object, by its address ([_checkers] owns each through a
    [unique_ptr]). *)
Definition Checker := nat.

(** Modelled from the spec: [ikos_unreachable], a macro defined outside this
    file, is fatal. A function whose control can end in it either returns a
    value or stops with the macro's message. *)
Inductive Outcome (A : Type) :=
| Returns (a : A)
| Unreachable (msg : string).

Arguments Returns {A} a.
Arguments Unreachable {A} msg.

(** ** The class *)

Section FunctionFixpoint.

Context `{!AbstractDomainOps}.

(** A profile answers [widening_hint]; the profiler answers [profile]. Both
    return a [boost::optional]. *)
Record FixpointProfile := {
  widening_hint : ar.BasicBlock -> option Threshold
}.

Record FixpointProfiler := {
  profile : ar.Function -> option FixpointProfile
}.

(** The members of the analysis context that the constructors read and this
    model keeps ([precision], [liveness] and [pointer] only flow into the
    statement engine's constructor). A null [fixpoint_profiler] is [None]. *)
Record Context := {
  opts : AnalysisOptions;
  fixpoint_profiler : option FixpointProfiler
}.

(** The statement engine holds the current invariant. *)
Record ExecutionEngine := {
  inv : AbstractDomain
}.

(** The flags of the call engine: two are given to its constructor, the
    third is set by [mark_check_callees] and starts cleared. *)
Record CallExecutionEngine := {
  context_stable : bool;
  convergence_achieved : bool;
  check_callees : bool
}.

(** What the statement engine and [transfer_function] do to the current
    invariant. [transfer_function] is handed the call engine too. *)
Class EngineSemantics := {
  exec_enter_sem : ar.BasicBlock -> AbstractDomain -> AbstractDomain;
  exec_leave_sem : ar.BasicBlock -> AbstractDomain -> AbstractDomain;
  exec_edge_sem :
    ar.BasicBlock -> ar.BasicBlock -> AbstractDomain -> AbstractDomain;
  transfer_sem :
    CallExecutionEngine -> ar.Statement -> AbstractDomain -> AbstractDomain
}.

(** Calls on collaborators, named by the collaborator and its method. *)
Inductive Event :=
| Logger_start_callee (c : CallContext) (f : ar.Function)
| Logger_end_callee (c : CallContext) (f : ar.Function)
| Logger_start_cycle (head : ar.BasicBlock)
| Logger_start_cycle_iter (head : ar.BasicBlock) (iteration : Z)
                          (kind : core.FixpointIterationKind)
| Logger_end_cycle (head : ar.BasicBlock)
| Engine_set_inv (d : AbstractDomain)
| Engine_exec_enter (bb : ar.BasicBlock)
| Engine_exec_leave (bb : ar.BasicBlock)
| Engine_exec_edge (src dest : ar.BasicBlock)
| Transfer_function (stmt : ar.Statement)
| CallEngine_exec_exit (f : ar.Function)
| CallEngine_mark_convergence_achieved
| CallEngine_mark_check_callees
| Checker_check (checker : Checker) (stmt : ar.Statement)
                (d : AbstractDomain) (c : CallContext).

(** The object: the tables of the base class [FwdFixpointIterator] and its
    graph, then the members of [FunctionFixpoint]. The logger is reached
    through the trace. *)
Record FunctionFixpoint := {
  cfg : ar.Code;
  _pre : gmap ar.BasicBlock AbstractDomain;
  _post : gmap ar.BasicBlock AbstractDomain;
  _opts : AnalysisOptions;
  _function : ar.Function;
  _call_context : CallContext;
  _profile : option FixpointProfile;
  _analyzed_functions : list ar.Function;
  _checkers : list Checker;
  _exec_engine : ExecutionEngine;
  _call_exec_engine : CallExecutionEngine
}.

(** *** Member updates *)

Definition with_pre (t : gmap ar.BasicBlock AbstractDomain)
    (this : FunctionFixpoint) : FunctionFixpoint :=
  {| cfg := cfg this; _pre := t; _post := _post this; _opts := _opts this;
     _function := _function this; _call_context := _call_context this;
     _profile := _profile this;
     _analyzed_functions := _analyzed_functions this;
     _checkers := _checkers this; _exec_engine := _exec_engine this;
     _call_exec_engine := _call_exec_engine this |}.

Definition with_post (t : gmap ar.BasicBlock AbstractDomain)
    (this : FunctionFixpoint) : FunctionFixpoint :=
  {| cfg := cfg this; _pre := _pre this; _post := t; _opts := _opts this;
     _function := _function this; _call_context := _call_context this;
     _profile := _profile this;
     _analyzed_functions := _analyzed_functions this;
     _checkers := _checkers this; _exec_engine := _exec_engine this;
     _call_exec_engine := _call_exec_engine this |}.

Definition with_analyzed_functions (l : list ar.Function)
    (this : FunctionFixpoint) : FunctionFixpoint :=
  {| cfg := cfg this; _pre := _pre this; _post := _post this;
     _opts := _opts this; _function := _function this;
     _call_context := _call_context this; _profile := _profile this;
     _analyzed_functions := l;
     _checkers := _checkers this; _exec_engine := _exec_engine this;
     _call_exec_engine := _call_exec_engine this |}.

Definition with_exec_engine (e : ExecutionEngine)
    (this : FunctionFixpoint) : FunctionFixpoint :=
  {| cfg := cfg this; _pre := _pre this; _post := _post this;
     _opts := _opts this; _function := _function this;
     _call_context := _call_context this; _profile := _profile this;
     _analyzed_functions := _analyzed_functions this;
     _checkers := _checkers this; _exec_engine := e;
     _call_exec_engine := _call_exec_engine this |}.

Definition with_call_exec_engine (e : CallExecutionEngine)
    (this : FunctionFixpoint) : FunctionFixpoint :=
  {| cfg := cfg this; _pre := _pre this; _post := _post this;
     _opts := _opts this; _function := _function this;
     _call_context := _call_context this; _profile := _profile this;
     _analyzed_functions := _analyzed_functions this;
     _checkers := _checkers this; _exec_engine := _exec_engine this;
     _call_exec_engine := e |}.

(** *** Methods as state transformers with a trace *)

Definition M (A : Type) : Type :=
  FunctionFixpoint -> A * FunctionFixpoint * list Event.

#[export] Instance M_ret : MRet M := fun A a this => (a, this, []).

#[export] Instance M_bind : MBind M := fun A B k m this =>
  let '(a, this1, t1) := m this in
  let '(b, this2, t2) := k a this1 in
  (b, this2, t1 ++ t2).

(** [this->member]. *)
Definition member {A} (proj : FunctionFixpoint -> A) : M A :=
  fun this => (proj this, this, []).

Definition update (f : FunctionFixpoint -> FunctionFixpoint) : M unit :=
  fun this => (tt, f this, []).

Definition emit (e : Event) : M unit :=
  fun this => (tt, this, [e]).

(** [if (c) { m }]. *)
Definition when (c : bool) (m : M unit) : M unit :=
  if c then m else mret tt.

(** [for (x : l) { body }]. *)
Fixpoint for_each {X} (l : list X) (body : X -> M unit) : M unit :=
  match l with
  | [] => mret tt
  | x :: l' => body x ;; for_each l' body
  end.

(** The object and the trace a method call leaves. *)
Definition state_of {A} (r : A * FunctionFixpoint * list Event)
  : FunctionFixpoint := snd (fst r).

Definition trace_of {A} (r : A * FunctionFixpoint * list Event)
  : list Event := snd r.

Definition value_of {A} (r : A * FunctionFixpoint * list Event) : A :=
  fst (fst r).

End FunctionFixpoint.


Section Methods.

Context `{!AbstractDomainOps} `{!EngineSemantics} `{!ar.Bundle}.

(** *** Calls on the collaborators *)

Definition start_callee (c : CallContext) (f : ar.Function) : M unit :=
  emit (Logger_start_callee c f).

Definition end_callee (c : CallContext) (f : ar.Function) : M unit :=
  emit (Logger_end_callee c f).

Definition start_cycle (head : ar.BasicBlock) : M unit :=
  emit (Logger_start_cycle head).

Definition start_cycle_iter (head : ar.BasicBlock) (iteration : Z)
    (kind : core.FixpointIterationKind) : M unit :=
  emit (Logger_start_cycle_iter head iteration kind).

Definition end_cycle (head : ar.BasicBlock) : M unit :=
  emit (Logger_end_cycle head).

Definition map_inv (f : AbstractDomain -> AbstractDomain)
    (this : FunctionFixpoint) : FunctionFixpoint :=
  with_exec_engine {| inv := f (inv (_exec_engine this)) |} this.

Definition set_inv (d : AbstractDomain) : M unit :=
  emit (Engine_set_inv d) ;; update (map_inv (fun _ => d)).

Definition exec_enter (bb : ar.BasicBlock) : M unit :=
  emit (Engine_exec_enter bb) ;; update (map_inv (exec_enter_sem bb)).

Definition exec_leave (bb : ar.BasicBlock) : M unit :=
  emit (Engine_exec_leave bb) ;; update (map_inv (exec_leave_sem bb)).

Definition exec_edge (src dest : ar.BasicBlock) : M unit :=
  emit (Engine_exec_edge src dest) ;;
  update (map_inv (exec_edge_sem src dest)).

Definition transfer_function (stmt : ar.Statement) : M unit :=
  emit (Transfer_function stmt) ;;
  update (fun this =>
            map_inv (transfer_sem (_call_exec_engine this) stmt) this).

Definition exec_exit (f : ar.Function) : M unit :=
  emit (CallEngine_exec_exit f).

Definition check (checker : Checker) (stmt : ar.Statement)
    (d : AbstractDomain) (c : CallContext) : M unit :=
  emit (Checker_check checker stmt d c).

(** Modelled from the spec: [mark_convergence_achieved] of the call engine,
    defined outside this file, sets the flag [convergence_achieved]. *)
Definition mark_convergence_achieved : M unit :=
  emit CallEngine_mark_convergence_achieved ;;
  update (fun this =>
    with_call_exec_engine
      {| context_stable := context_stable (_call_exec_engine this);
         convergence_achieved := true;
         check_callees := check_callees (_call_exec_engine this) |} this).

(** Modelled from the spec: [mark_check_callees] of the call engine, defined
    outside this file, puts it in the mode where callees are checked. *)
Definition mark_check_callees : M unit :=
  emit CallEngine_mark_check_callees ;;
  update (fun this =>
    with_call_exec_engine
      {| context_stable := context_stable (_call_exec_engine this);
         convergence_achieved := convergence_achieved (_call_exec_engine this);
         check_callees := true |} this).

(** *** The base class [FwdFixpointIterator] *)

(** Modelled from the spec: [pre(bb)] of the base class, defined outside this
    file, reads the stored pre-invariant of a block; a block with none
    stored reads as bottom. *)
Definition pre (this : FunctionFixpoint) (bb : ar.BasicBlock)
  : AbstractDomain := default bottom (_pre this !! bb).

(** Modelled from the spec: [clear_post()] of the base class, defined outside
    this file, discards every stored post-invariant. *)
Definition clear_post : M unit := update (with_post ∅).

(** [FwdFixpointIterator::run], the generic driver, defined outside this
    file. *)
Class FwdFixpointIterator := {
  FwdFixpointIterator_run : AbstractDomain -> M unit
}.

(** *** Constructors *)

(** [FunctionFixpoint(ctx, checkers, logger, entry_point)]. *)
Definition FunctionFixpoint_entry (ctx : Context) (checkers : list Checker)
    (entry_point : ar.Function) : FunctionFixpoint :=
  {| cfg := ar.body entry_point;
     _pre := ∅;
     _post := ∅;
     _opts := opts ctx;
     _function := entry_point;
     _call_context := CallContextFactory.get_empty;
     _profile := match fixpoint_profiler ctx with
                 | None => None
                 | Some profiler => profile profiler entry_point
                 end;
     _analyzed_functions := [entry_point];
     _checkers := checkers;
     _exec_engine := {| inv := bottom |};
     _call_exec_engine := {| context_stable := true;
                             convergence_achieved := false;
                             check_callees := false |} |}.

(** [FunctionFixpoint(ctx, caller, call, callee, context_stable)]: the
    member initializers, then the body's [push_back]. *)
Definition FunctionFixpoint_child (ctx : Context) (caller : FunctionFixpoint)
    (call : ar.CallBase) (callee : ar.Function) (stable : bool)
  : FunctionFixpoint :=
  let this :=
    {| cfg := ar.body callee;
       _pre := ∅;
       _post := ∅;
       _opts := opts ctx;
       _function := callee;
       _call_context :=
         CallContextFactory.get_context (_call_context caller) call;
       _profile := match fixpoint_profiler ctx with
                   | None => None
                   | Some profiler => profile profiler callee
                   end;
       _analyzed_functions := _analyzed_functions caller;
       _checkers := _checkers caller;
       _exec_engine := {| inv := bottom |};
       _call_exec_engine := {| context_stable := stable;
                               convergence_achieved := false;
                               check_callees := false |} |} in
  with_analyzed_functions (_analyzed_functions this ++ [callee]) this.

(** *** Policy hooks *)

Definition extrapolate (this : FunctionFixpoint) (head : ar.BasicBlock)
    (iteration : Z) (before after : AbstractDomain)
  : Outcome AbstractDomain :=
  if iteration <=? loop_iterations (_opts this) then
    Returns (join_iter_with before after)
  else
    match widening_strategy (_opts this) with
    | WideningStrategy.Widen =>
        match iteration =? uint_add (loop_iterations (_opts this)) 1,
              _profile this with
        | true, Some p =>
            match widening_hint p head with
            | Some threshold =>
                Returns (widen_threshold_with before after threshold)
            | None => Returns (widen_with before after)
            end
        | _, _ => Returns (widen_with before after)
        end
    | WideningStrategy.Join => Returns (join_iter_with before after)
    | WideningStrategy.Unrecognized _ => Unreachable "unexpected strategy"
    end.

Definition refine (this : FunctionFixpoint) (head : ar.BasicBlock)
    (iteration : Z) (before after : AbstractDomain)
  : Outcome AbstractDomain :=
  match narrowing_strategy (_opts this) with
  | NarrowingStrategy.Narrow =>
      match iteration =? 1, _profile this with
      | true, Some p =>
          match widening_hint p head with
          | Some threshold =>
              Returns (narrow_threshold_with before after threshold)
          | None => Returns (narrow_with before after)
          end
      | _, _ => Returns (narrow_with before after)
      end
  | NarrowingStrategy.Meet => Returns (meet_with before after)
  | NarrowingStrategy.Unrecognized _ => Unreachable "unexpected strategy"
  end.

Definition is_decreasing_iterations_fixpoint (this : FunctionFixpoint)
    (head : ar.BasicBlock) (iteration : Z) (before after : AbstractDomain)
  : bool :=
  match narrowing_iterations (_opts this) with
  | Some n => iteration >=? n
  | None => false
  end
  || leq before after.

(** [std::move(_exec_engine.inv())] hands the current invariant out; the
    engine is given a new one by [set_inv] before its next use. *)
Definition analyze_node (bb : ar.BasicBlock) (pre : AbstractDomain)
  : M AbstractDomain :=
  set_inv pre ;;
  exec_enter bb ;;
  for_each (ar.statements bb) (fun stmt => transfer_function stmt) ;;
  exec_leave bb ;;
  member (fun this => inv (_exec_engine this)).

Definition analyze_edge (src dest : ar.BasicBlock) (pre : AbstractDomain)
  : M AbstractDomain :=
  set_inv pre ;;
  exec_edge src dest ;;
  member (fun this => inv (_exec_engine this)).

Definition notify_enter_cycle (head : ar.BasicBlock) : M unit :=
  start_cycle head.

Definition notify_cycle_iteration (head : ar.BasicBlock) (iteration : Z)
    (kind : core.FixpointIterationKind) : M unit :=
  start_cycle_iter head iteration kind.

Definition notify_leave_cycle (head : ar.BasicBlock) : M unit :=
  end_cycle head.

Definition process_pre (bb : ar.BasicBlock) (pre : AbstractDomain)
  : M unit := mret tt.

(** [exit_block_or_null() == bb], for [bb] a pointer to a block. *)
Definition process_post (bb : ar.BasicBlock) (post : AbstractDomain)
  : M unit :=
  function ← member _function;
  when (bool_decide (ar.exit_block_or_null (ar.body function) = Some bb))
    (set_inv post ;;
     function ← member _function;
     exec_exit function).

(** *** The two passes *)

Definition run `{!FwdFixpointIterator} (inv : AbstractDomain) : M unit :=
  call_context ← member _call_context;
  when (negb (empty call_context))
    (function ← member _function;
     start_callee call_context function) ;;
  FwdFixpointIterator_run inv ;;
  mark_convergence_achieved ;;
  clear_post ;;
  call_context ← member _call_context;
  when (negb (empty call_context))
    (function ← member _function;
     end_callee call_context function).

(** The body of the loop over the checkers, for one statement. *)
Definition run_checks_checker (stmt : ar.Statement) (checker : Checker)
  : M unit :=
  d ← member (fun this => inv (_exec_engine this));
  call_context ← member _call_context;
  check checker stmt d call_context.

(** The body of the loop over the statements of a block. *)
Definition run_checks_statement (stmt : ar.Statement) : M unit :=
  when (ar.has_frontend stmt)
    (checkers ← member _checkers;
     for_each checkers (run_checks_checker stmt)) ;;
  transfer_function stmt.

(** The body of the loop over the blocks of the graph. *)
Definition run_checks_block (bb : ar.BasicBlock) : M unit :=
  d ← member (fun this => pre this bb);
  set_inv d ;;
  exec_enter bb ;;
  for_each (ar.statements bb) run_checks_statement ;;
  exec_leave bb.

Definition run_checks : M unit :=
  call_context ← member _call_context;
  when (negb (empty call_context))
    (function ← member _function;
     start_callee call_context function) ;;
  mark_check_callees ;;
  graph ← member cfg;
  for_each (ar.blocks graph) run_checks_block ;;
  call_context ← member _call_context;
  when (negb (empty call_context))
    (function ← member _function;
     end_callee call_context function).

(** [std::find] over a vector: the position of the first element equal to
    [value], and the end position when there is none. *)
Fixpoint std_find (l : list ar.Function) (value : ar.Function) : nat :=
  match l with
  | [] => 0%nat
  | x :: l' => if Nat.eqb x value then 0%nat else S (std_find l' value)
  end.

Definition is_currently_analyzed (this : FunctionFixpoint)
    (f : ar.Function) : bool :=
  negb (Nat.eqb (std_find (_analyzed_functions this) f)
                (length (_analyzed_functions this))).

End Methods.

(** ** The driver as a client of the hooks

    The generic driver owns the two invariant tables and otherwise acts on
    the object only by calling the hooks it is given. [extrapolate],
    [refine] and [is_decreasing_iterations_fixpoint] change nothing and
    call no collaborator, so they leave no step. *)

Section Driver.

Context `{!AbstractDomainOps} `{!EngineSemantics} `{!ar.Bundle}.

Inductive DriverStep :=
| Do_analyze_node (bb : ar.BasicBlock) (pre : AbstractDomain)
| Do_analyze_edge (src dest : ar.BasicBlock) (pre : AbstractDomain)
| Do_process_pre (bb : ar.BasicBlock) (pre : AbstractDomain)
| Do_process_post (bb : ar.BasicBlock) (post : AbstractDomain)
| Do_notify_enter_cycle (head : ar.BasicBlock)
| Do_notify_cycle_iteration (head : ar.BasicBlock) (iteration : Z)
                            (kind : core.FixpointIterationKind)
| Do_notify_leave_cycle (head : ar.BasicBlock)
| Do_set_pre (bb : ar.BasicBlock) (d : AbstractDomain)
| Do_set_post (bb : ar.BasicBlock) (d : AbstractDomain).

Definition perform (s : DriverStep) : M unit :=
  match s with
  | Do_analyze_node bb pre => analyze_node bb pre ;; mret tt
  | Do_analyze_edge src dest pre => analyze_edge src dest pre ;; mret tt
  | Do_process_pre bb pre => process_pre bb pre
  | Do_process_post bb post => process_post bb post
  | Do_notify_enter_cycle head => notify_enter_cycle head
  | Do_notify_cycle_iteration head iteration kind =>
      notify_cycle_iteration head iteration kind
  | Do_notify_leave_cycle head => notify_leave_cycle head
  | Do_set_pre bb d =>
      update (fun this => with_pre (<[bb := d]> (_pre this)) this)
  | Do_set_post bb d =>
      update (fun this => with_post (<[bb := d]> (_post this)) this)
  end.

(** A driver whose every run amounts to a finite sequence of hook calls and
    table writes. *)
Definition driven_by_hooks `{!FwdFixpointIterator} : Prop :=
  forall (inv : AbstractDomain) (this : FunctionFixpoint),
    exists steps : list DriverStep,
      FwdFixpointIterator_run inv this = for_each steps perform this.

(** *** Reading a trace *)

Definition is_check (e : Event) : bool :=
  match e with Checker_check _ _ _ _ => true | _ => false end.

Definition is_exec_exit (e : Event) : bool :=
  match e with CallEngine_exec_exit _ => true | _ => false end.

(** The logger call that opens, or closes, a pass: present exactly when the
    call context is not the empty one. *)
Definition callee_notice (mk : CallContext -> ar.Function -> Event)
    (c : CallContext) (f : ar.Function) : list Event :=
  if empty c then [] else [mk c f].

(** The call engine once [mark_check_callees] has been called. *)
Definition checking (ce : CallExecutionEngine) : CallExecutionEngine :=
  {| context_stable := context_stable ce;
     convergence_achieved := convergence_achieved ce;
     check_callees := true |}.

(** The invariant the statement engine holds just before the statement at
    position [i] of a block: the invariant at block entry, taken through
    the transfer of each of the statements before position [i]. *)
Definition invariant_before (ce : CallExecutionEngine)
    (at_entry : AbstractDomain) (stmts : list ar.Statement) (i : nat)
  : AbstractDomain :=
  foldl (fun d stmt => transfer_sem ce stmt d) at_entry (take i stmts).

(** One statement of the check pass, as the description has it: every
    checker, in order, on the invariant [d], when the statement comes from
    the frontend; then the statement's transfer. *)
Definition statement_pass (checkers : list Checker) (c : CallContext)
    (stmt : ar.Statement) (d : AbstractDomain) : list Event :=
  (if ar.has_frontend stmt
   then map (fun checker => Checker_check checker stmt d c) checkers
   else [])
  ++ [Transfer_function stmt].

(** One block of the check pass, as the description has it, from the stored
    pre-invariant [stored]. *)
Definition block_pass (ce : CallExecutionEngine) (checkers : list Checker)
    (c : CallContext) (stored : AbstractDomain) (bb : ar.BasicBlock)
  : list Event :=
  [Engine_set_inv stored; Engine_exec_enter bb]
  ++ concat (imap (fun i stmt =>
                     statement_pass checkers c stmt
                       (invariant_before ce (exec_enter_sem bb stored)
                                         (ar.statements bb) i))
                  (ar.statements bb))
  ++ [Engine_exec_leave bb].

(** The members that are set by the constructors and read afterwards. *)
Definition same_members (a b : FunctionFixpoint) : Prop :=
  cfg a = cfg b
  /\ _opts a = _opts b
  /\ _function a = _function b
  /\ _call_context a = _call_context b
  /\ _profile a = _profile b
  /\ _analyzed_functions a = _analyzed_functions b
  /\ _checkers a = _checkers b.

(** An event that is no checker call, and no function-exit call of the call
    engine when the function of [s0] has no exit block. *)
Definition quiet (s0 : FunctionFixpoint) (e : Event) : Prop :=
  is_check e = false
  /\ (ar.exit_block_or_null (ar.body (_function s0)) = None ->
      is_exec_exit e = false).

(** *** Objects in memory

    Each [FunctionFixpoint] object lives at its own address and holds its
    members by value. Constructing a child reads the caller's object
    through a reference to const and places the new object at an unused
    address. *)
Definition construct_child (ctx : Context)
    (heap : gmap nat FunctionFixpoint) (caller : nat)
    (call : ar.CallBase) (callee : ar.Function) (stable : bool)
  : option (nat * gmap nat FunctionFixpoint) :=
  match heap !! caller with
  | Some c =>
      let a := fresh (dom heap) in
      Some (a, <[a := FunctionFixpoint_child ctx c call callee stable]> heap)
  | None => None
  end.

(** *** The active analysis chain

    The objects the analysis can hold: the entry point's, a child of one of
    them, or one of them after a pass. [active chain this] also gives the
    functions from the entry point down to [this]'s own, in call order. *)
Inductive active `{!FwdFixpointIterator}
  : list ar.Function -> FunctionFixpoint -> Prop :=
| active_entry ctx checkers entry_point :
    active [entry_point] (FunctionFixpoint_entry ctx checkers entry_point)
| active_child chain caller ctx call callee stable :
    active chain caller ->
    active (chain ++ [callee])
           (FunctionFixpoint_child ctx caller call callee stable)
| active_run chain this inv :
    active chain this ->
    active chain (state_of (run inv this))
| active_run_checks chain this :
    active chain this ->
    active chain (state_of (run_checks this))
| active_step chain this s :
    active chain this ->
    active chain (state_of (perform s this)).

(** *** More readings of a trace *)

(** The statement and the checker of a checker call. *)
Definition checked (e : Event) : option (ar.Statement * Checker) :=
  match e with
  | Checker_check checker stmt _ _ => Some (stmt, checker)
  | _ => None
  end.

(** The statement of a call of [transfer_function]. *)
Definition transferred (e : Event) : option ar.Statement :=
  match e with
  | Transfer_function stmt => Some stmt
  | _ => None
  end.

(** A function-exit call names the function of [this]. *)
Definition exits_own (this : FunctionFixpoint) (e : Event) : Prop :=
  forall f, e = CallEngine_exec_exit f -> f = _function this.

(** A start or end notice to the logger. *)
Definition is_callee_notice (e : Event) : bool :=
  match e with
  | Logger_start_callee _ _ | Logger_end_callee _ _ => true
  | _ => false
  end.

(** An event a hook can leave: no callee notice, and no function-exit call
    for a function other than that of [s0]. *)
Definition hook_event (s0 : FunctionFixpoint) (e : Event) : Prop :=
  is_callee_notice e = false /\ exits_own s0 e.

(** An object that differs from [s0] in the two invariant tables and the
    statement engine at most. *)
Definition same_but_invariants (s0 s : FunctionFixpoint) : Prop :=
  exists p q e, s = with_pre p (with_post q (with_exec_engine e s0)).

(** The invariant a block ends with: block entry, the transfer of each
    statement in order, block exit. *)
Definition block_post (ce : CallExecutionEngine) (bb : ar.BasicBlock)
    (d : AbstractDomain) : AbstractDomain :=
  exec_leave_sem bb
    (foldl (fun d stmt => transfer_sem ce stmt d)
           (exec_enter_sem bb d) (ar.statements bb)).

End Driver.

(** ** A small program and a symbolic domain

    The domain's values are the expressions that built them, so that two
    operations never give the same value by accident. *)

Module Sample.

#[export] Instance domain : AbstractDomainOps := {|
  AbstractDomain := string;
  Threshold := string;
  bottom := "bottom";
  leq := fun a b => bool_decide (a = b);
  join_iter_with := fun a b => "join(" +:+ a +:+ "," +:+ b +:+ ")";
  widen_with := fun a b => "widen(" +:+ a +:+ "," +:+ b +:+ ")";
  widen_threshold_with := fun a b t =>
    "widen_threshold(" +:+ a +:+ "," +:+ b +:+ "," +:+ t +:+ ")";
  narrow_with := fun a b => "narrow(" +:+ a +:+ "," +:+ b +:+ ")";
  narrow_threshold_with := fun a b t =>
    "narrow_threshold(" +:+ a +:+ "," +:+ b +:+ "," +:+ t +:+ ")";
  meet_with := fun a b => "meet(" +:+ a +:+ "," +:+ b +:+ ")"
|}.

Definition digit (n : nat) : string :=
  match n with
  | 0%nat => "0" | 1%nat => "1" | 2%nat => "2" | 3%nat => "3" | 4%nat => "4"
  | _ => "n"
  end.

#[export] Instance engine : EngineSemantics := {|
  exec_enter_sem := fun bb d => "enter" +:+ digit bb +:+ "(" +:+ d +:+ ")";
  exec_leave_sem := fun bb d => "leave" +:+ digit bb +:+ "(" +:+ d +:+ ")";
  exec_edge_sem := fun src dest d =>
    "edge" +:+ digit src +:+ digit dest +:+ "(" +:+ d +:+ ")";
  transfer_sem := fun ce stmt d =>
    (if check_callees ce then "check" else "exec") +:+ digit stmt
      +:+ "(" +:+ d +:+ ")"
|}.

(** Function 0 has the blocks 1 and 2 and exits through 2; function 1 has
    the single block 3 and no exit block. Block 1 holds the statements 1, 2
    and 3, of which 1 and 3 come from the frontend; block 2 holds statement
    4; block 3 holds none. *)
#[export] Instance bundle : ar.Bundle := {|
  ar.body := fun f =>
    match f with
    | 0%nat => {| ar.blocks := [1; 2]%nat; ar.exit_block_or_null := Some 2%nat |}
    | _ => {| ar.blocks := [3%nat]; ar.exit_block_or_null := None |}
    end;
  ar.statements := fun bb =>
    match bb with
    | 1%nat => [1; 2; 3]%nat
    | 2%nat => [4%nat]
    | _ => []
    end;
  ar.has_frontend := fun stmt =>
    match stmt with
    | 1%nat | 3%nat => true
    | _ => false
    end
|}.

(** A driver for straight-line graphs: it visits the blocks in order,
    storing each block's invariants and calling the hooks around it. *)
Fixpoint straight_line (ce : CallExecutionEngine)
    (bbs : list ar.BasicBlock) (d : AbstractDomain) : list DriverStep :=
  match bbs with
  | [] => []
  | bb :: rest =>
      let post :=
        exec_leave_sem bb
          (foldl (fun d stmt => transfer_sem ce stmt d)
                 (exec_enter_sem bb d) (ar.statements bb)) in
      [Do_set_pre bb d; Do_process_pre bb d; Do_analyze_node bb d;
       Do_set_post bb post; Do_process_post bb post]
      ++ straight_line ce rest post
  end.

#[export] Instance driver : FwdFixpointIterator := {|
  FwdFixpointIterator_run := fun d this =>
    for_each (straight_line (_call_exec_engine this)
                            (ar.blocks (cfg this)) d) perform this
|}.

Definition hints : FixpointProfile :=
  {| widening_hint := fun head =>
       match head with 1%nat => Some "t" | _ => None end |}.

Definition options : AnalysisOptions :=
  {| loop_iterations := 2;
     widening_strategy := WideningStrategy.Widen;
     narrowing_strategy := NarrowingStrategy.Narrow;
     narrowing_iterations := Some 3 |}.

Definition context : Context :=
  {| opts := options;
     fixpoint_profiler := Some {| profile := fun _ => Some hints |} |}.

Definition entry : FunctionFixpoint :=
  FunctionFixpoint_entry context [7; 8]%nat 0%nat.

Definition child : FunctionFixpoint :=
  FunctionFixpoint_child context entry 5%nat 1%nat false.

(** An object whose options hold strategy values that are no enumerator. *)
Definition misconfigured : FunctionFixpoint :=
  FunctionFixpoint_entry
    {| opts := {| loop_iterations := 2;
                  widening_strategy := WideningStrategy.Unrecognized 7;
                  narrowing_strategy := NarrowingStrategy.Unrecognized 7;
                  narrowing_iterations := None |};
       fixpoint_profiler := None |}
    [] 0%nat.

(** A context with no profiler, and the entry point's object under it. *)
Definition plain_context : Context :=
  {| opts := options; fixpoint_profiler := None |}.

Definition plain_entry : FunctionFixpoint :=
  FunctionFixpoint_entry plain_context [7; 8]%nat 0%nat.

(** A memory holding the entry point's object at address 0. *)
Definition heap : gmap nat FunctionFixpoint := {[ 0%nat := entry ]}.

End Sample.

(** * Properties *)

Section Policy.

Context `{!AbstractDomainOps} `{!EngineSemantics} `{!ar.Bundle}.

Lemma uint_add_one_after (bound iteration : Z) :
  is_unsigned bound -> is_unsigned iteration -> bound < iteration ->
  uint_add bound 1 = bound + 1.
Proof.
  unfold is_unsigned, uint_add. intros Hb Hi Hlt.
  apply Z.mod_small. lia.
Qed.

(** C1. With [iteration] and the configured [loop_iterations] in the range
    of [unsigned]: up to the bound, [extrapolate] returns the join of
    [before] and [after]; beyond it, under [Widen], it returns the
    thresholded widening when the iteration is [loop_iterations + 1] and the
    profile gives a hint for the head, and the plain widening otherwise;
    under [Join] it returns the join at every iteration. *)
Theorem extrapolate_policy (this : FunctionFixpoint) (head : ar.BasicBlock)
    (iteration : Z) (before after : AbstractDomain) :
  is_unsigned iteration ->
  is_unsigned (loop_iterations (_opts this)) ->
  (iteration <= loop_iterations (_opts this) ->
   extrapolate this head iteration before after
   = Returns (join_iter_with before after))
  /\ (loop_iterations (_opts this) < iteration ->
      widening_strategy (_opts this) = WideningStrategy.Widen ->
      (forall p threshold,
          iteration = loop_iterations (_opts this) + 1 ->
          _profile this = Some p ->
          widening_hint p head = Some threshold ->
          extrapolate this head iteration before after
          = Returns (widen_threshold_with before after threshold))
      /\ (iteration <> loop_iterations (_opts this) + 1
          \/ _profile this = None
          \/ (exists p, _profile this = Some p
                        /\ widening_hint p head = None) ->
          extrapolate this head iteration before after
          = Returns (widen_with before after)))
  /\ (widening_strategy (_opts this) = WideningStrategy.Join ->
      extrapolate this head iteration before after
      = Returns (join_iter_with before after)).
Proof.
  intros Hi Hb. unfold extrapolate. split; [| split].
  - intros Hle. apply Z.leb_le in Hle. now rewrite Hle.
  - intros Hgt Hw.
    rewrite (proj2 (Z.leb_gt _ _) Hgt), Hw.
    rewrite (uint_add_one_after _ iteration Hb Hi Hgt).
    split.
    + intros p threshold Hnext Hp Hh.
      rewrite (proj2 (Z.eqb_eq _ _) Hnext), Hp, Hh. reflexivity.
    + intros [Hne | [Hnone | (p & Hp & Hh)]].
      * rewrite (proj2 (Z.eqb_neq _ _) Hne). reflexivity.
      * rewrite Hnone. now destruct (iteration =? _).
      * rewrite Hp, Hh. now destruct (iteration =? _).
  - intros Hjoin. rewrite Hjoin. now destruct (iteration <=? _).
Qed.

(** C2. Under [Narrow], [refine] returns the thresholded narrowing exactly
    when the iteration is 1 and the profile gives a hint for the head, and
    the plain narrowing otherwise; under [Meet] it returns the meet. *)
Theorem refine_policy (this : FunctionFixpoint) (head : ar.BasicBlock)
    (iteration : Z) (before after : AbstractDomain) :
  (narrowing_strategy (_opts this) = NarrowingStrategy.Narrow ->
   (forall p threshold,
       iteration = 1 ->
       _profile this = Some p ->
       widening_hint p head = Some threshold ->
       refine this head iteration before after
       = Returns (narrow_threshold_with before after threshold))
   /\ (iteration <> 1
       \/ _profile this = None
       \/ (exists p, _profile this = Some p
                     /\ widening_hint p head = None) ->
       refine this head iteration before after
       = Returns (narrow_with before after)))
  /\ (narrowing_strategy (_opts this) = NarrowingStrategy.Meet ->
      refine this head iteration before after
      = Returns (meet_with before after)).
Proof.
  unfold refine. split.
  - intros Hn. rewrite Hn. split.
    + intros p threshold Hone Hp Hh. subst iteration.
      now rewrite Hp, Hh.
    + intros [Hne | [Hnone | (p & Hp & Hh)]].
      * now rewrite (proj2 (Z.eqb_neq _ _) Hne).
      * rewrite Hnone. now destruct (iteration =? 1).
      * rewrite Hp, Hh. now destruct (iteration =? 1).
  - intros Hm. now rewrite Hm.
Qed.


(** C3. [is_decreasing_iterations_fixpoint] answers true exactly when a cap
    on the narrowing iterations is configured and the iteration has reached
    it, or [before.leq(after)] holds; with the cap [k] configured it answers
    true at iteration [k] whatever the two states are. *)
Theorem is_decreasing_iterations_fixpoint_spec (this : FunctionFixpoint)
    (head : ar.BasicBlock) (iteration : Z) (before after : AbstractDomain) :
  (is_decreasing_iterations_fixpoint this head iteration before after = true
   <-> (exists cap, narrowing_iterations (_opts this) = Some cap
                    /\ cap <= iteration)
       \/ leq before after = true)
  /\ (forall k, narrowing_iterations (_opts this) = Some k ->
                is_decreasing_iterations_fixpoint this head k before after
                = true).
Proof.
  unfold is_decreasing_iterations_fixpoint. split.
  - rewrite orb_true_iff. split.
    + intros [Hcap | Hleq]; [left | now right].
      destruct (narrowing_iterations (_opts this)) as [cap |];
        [| discriminate].
      exists cap. split; [reflexivity |].
      apply Z.geb_le in Hcap. lia.
    + intros [(cap & Hcfg & Hle) | Hleq]; [left | now right].
      rewrite Hcfg. apply Z.geb_le. lia.
  - intros k Hcfg. rewrite Hcfg.
    rewrite (proj2 (Z.geb_le k k)) by lia. reflexivity.
Qed.

(** C8. When the widening strategy is [Widen] or [Join] and the narrowing
    strategy is [Narrow] or [Meet], [extrapolate] and [refine] return a
    state: neither ends in the unreachable branch. A strategy value that is
    none of these, once it reaches the dispatch (for [extrapolate], beyond
    the joined iterations), ends in the unreachable branch: no state is
    returned. *)
Theorem unexpected_strategy_unreachable (this : FunctionFixpoint)
    (head : ar.BasicBlock) (iteration : Z) (before after : AbstractDomain) :
  (widening_strategy (_opts this) = WideningStrategy.Widen
   \/ widening_strategy (_opts this) = WideningStrategy.Join ->
   narrowing_strategy (_opts this) = NarrowingStrategy.Narrow
   \/ narrowing_strategy (_opts this) = NarrowingStrategy.Meet ->
   (exists d, extrapolate this head iteration before after = Returns d)
   /\ (exists d, refine this head iteration before after = Returns d))
  /\ (forall raw,
         widening_strategy (_opts this) = WideningStrategy.Unrecognized raw ->
         loop_iterations (_opts this) < iteration ->
         extrapolate this head iteration before after
         = Unreachable "unexpected strategy")
  /\ (forall raw,
         narrowing_strategy (_opts this)
         = NarrowingStrategy.Unrecognized raw ->
         refine this head iteration before after
         = Unreachable "unexpected strategy").
Proof.
  unfold extrapolate, refine. split; [| split].
  - intros Hw Hn. split.
    + destruct (iteration <=? _); [eauto |].
      destruct Hw as [-> | ->]; [| eauto].
      destruct (iteration =? _), (_profile this) as [p |]; eauto.
      destruct (widening_hint p head); eauto.
    + destruct Hn as [-> | ->]; [| eauto].
      destruct (iteration =? 1), (_profile this) as [p |]; eauto.
      destruct (widening_hint p head); eauto.
  - intros raw Hw Hgt.
    now rewrite (proj2 (Z.leb_gt _ _) Hgt), Hw.
  - intros raw Hn. now rewrite Hn.
Qed.

End Policy.

Section Passes.

Context `{!AbstractDomainOps} `{!EngineSemantics} `{!ar.Bundle}.

(** *** Running the methods, one call at a time *)

Lemma state_of_pair {A} (a : A) (s : FunctionFixpoint) (t : list Event) :
  state_of (a, s, t) = s.
Proof. reflexivity. Qed.

Lemma trace_of_pair {A} (a : A) (s : FunctionFixpoint) (t : list Event) :
  trace_of (a, s, t) = t.
Proof. reflexivity. Qed.

Lemma value_of_pair {A} (a : A) (s : FunctionFixpoint) (t : list Event) :
  value_of (a, s, t) = a.
Proof. reflexivity. Qed.

Lemma state_bind {A B} (m : M A) (k : A -> M B) (this : FunctionFixpoint) :
  state_of ((m ≫= k) this)
  = state_of (k (value_of (m this)) (state_of (m this))).
Proof.
  unfold mbind, M_bind, state_of, value_of.
  destruct (m this) as [[a s1] t1]. simpl.
  now destruct (k a s1) as [[b s2] t2].
Qed.

Lemma trace_bind {A B} (m : M A) (k : A -> M B) (this : FunctionFixpoint) :
  trace_of ((m ≫= k) this)
  = trace_of (m this)
    ++ trace_of (k (value_of (m this)) (state_of (m this))).
Proof.
  unfold mbind, M_bind, state_of, value_of, trace_of.
  destruct (m this) as [[a s1] t1]. simpl.
  now destruct (k a s1) as [[b s2] t2].
Qed.

Lemma value_bind {A B} (m : M A) (k : A -> M B) (this : FunctionFixpoint) :
  value_of ((m ≫= k) this)
  = value_of (k (value_of (m this)) (state_of (m this))).
Proof.
  unfold mbind, M_bind, state_of, value_of.
  destruct (m this) as [[a s1] t1]. simpl.
  now destruct (k a s1) as [[b s2] t2].
Qed.

Lemma member_run {A} (proj : FunctionFixpoint -> A) (this : FunctionFixpoint) :
  member proj this = (proj this, this, []).
Proof. reflexivity. Qed.

Lemma emit_run (e : Event) (this : FunctionFixpoint) :
  emit e this = (tt, this, [e]).
Proof. reflexivity. Qed.

Lemma update_run (f : FunctionFixpoint -> FunctionFixpoint)
    (this : FunctionFixpoint) :
  update f this = (tt, f this, []).
Proof. reflexivity. Qed.

Lemma mret_run {A} (a : A) (this : FunctionFixpoint) :
  mret (M := M) a this = (a, this, []).
Proof. reflexivity. Qed.

Lemma when_run (c : bool) (m : M unit) (this : FunctionFixpoint) :
  when c m this = if c then m this else (tt, this, []).
Proof. now destruct c. Qed.

Lemma unit_run (m : M unit) (this : FunctionFixpoint) :
  m this = (tt, state_of (m this), trace_of (m this)).
Proof. now destruct (m this) as [[[] s] t]. Qed.

Lemma for_each_nil {X} (body : X -> M unit) (this : FunctionFixpoint) :
  for_each [] body this = (tt, this, []).
Proof. reflexivity. Qed.

Lemma for_each_cons {X} (x : X) (l : list X) (body : X -> M unit)
    (this : FunctionFixpoint) :
  for_each (x :: l) body this
  = (tt, state_of (for_each l body (state_of (body x this))),
     trace_of (body x this)
     ++ trace_of (for_each l body (state_of (body x this)))).
Proof.
  rewrite (unit_run (for_each (x :: l) body)). simpl for_each.
  now rewrite state_bind, trace_bind.
Qed.

End Passes.

Create Rewrite HintDb run.

#[global] Hint Rewrite @state_bind @trace_bind @value_bind @member_run
  @emit_run @update_run @mret_run @when_run @for_each_nil @for_each_cons
  @state_of_pair @trace_of_pair @value_of_pair : run.

Ltac run_methods :=
  repeat first [progress (autorewrite with run) | progress (cbn beta)].

Section CheckPass.

Context `{!AbstractDomainOps} `{!EngineSemantics} `{!ar.Bundle}.

Lemma with_exec_engine_self (this : FunctionFixpoint) :
  with_exec_engine (_exec_engine this) this = this.
Proof. now destruct this. Qed.

Lemma map_inv_with_exec_engine (f : AbstractDomain -> AbstractDomain)
    (e : ExecutionEngine) (this : FunctionFixpoint) :
  map_inv f (with_exec_engine e this)
  = with_exec_engine {| inv := f (inv e) |} this.
Proof. reflexivity. Qed.

(** The loop over the checkers calls each on the current invariant and
    changes nothing. *)
Lemma checkers_loop (stmt : ar.Statement) (checkers : list Checker)
    (this : FunctionFixpoint) :
  for_each checkers (run_checks_checker stmt) this
  = (tt, this,
     map (fun checker =>
            Checker_check checker stmt (inv (_exec_engine this))
                          (_call_context this))
         checkers).
Proof.
  induction checkers as [| checker rest IH]; [reflexivity |].
  rewrite for_each_cons.
  change (run_checks_checker stmt checker this)
    with (tt, this,
          [Checker_check checker stmt (inv (_exec_engine this))
                         (_call_context this)]).
  rewrite state_of_pair, trace_of_pair, IH. reflexivity.
Qed.

Lemma run_checks_statement_run (stmt : ar.Statement) (d : AbstractDomain)
    (this : FunctionFixpoint) :
  run_checks_statement stmt (with_exec_engine {| inv := d |} this)
  = (tt,
     with_exec_engine
       {| inv := transfer_sem (_call_exec_engine this) stmt d |} this,
     statement_pass (_checkers this) (_call_context this) stmt d).
Proof.
  rewrite (unit_run (run_checks_statement stmt)).
  unfold run_checks_statement, statement_pass, transfer_function.
  destruct (ar.has_frontend stmt); run_methods;
    rewrite ?checkers_loop; run_methods; reflexivity.
Qed.

Lemma statements_loop (stmts : list ar.Statement) (d : AbstractDomain)
    (this : FunctionFixpoint) :
  for_each stmts run_checks_statement (with_exec_engine {| inv := d |} this)
  = (tt,
     with_exec_engine
       {| inv := foldl (fun d stmt =>
                          transfer_sem (_call_exec_engine this) stmt d)
                       d stmts |} this,
     concat (imap (fun i stmt =>
                     statement_pass (_checkers this) (_call_context this)
                       stmt
                       (invariant_before (_call_exec_engine this) d stmts i))
                  stmts)).
Proof.
  revert d. induction stmts as [| stmt rest IH]; intros d; [reflexivity |].
  rewrite for_each_cons, run_checks_statement_run.
  rewrite state_of_pair, trace_of_pair, IH. reflexivity.
Qed.

Lemma run_checks_block_run (bb : ar.BasicBlock) (e : ExecutionEngine)
    (this : FunctionFixpoint) :
  run_checks_block bb (with_exec_engine e this)
  = (tt,
     with_exec_engine
       {| inv := exec_leave_sem bb
                   (foldl (fun d stmt =>
                             transfer_sem (_call_exec_engine this) stmt d)
                          (exec_enter_sem bb (pre this bb))
                          (ar.statements bb)) |} this,
     block_pass (_call_exec_engine this) (_checkers this)
                (_call_context this) (pre this bb) bb).
Proof.
  rewrite (unit_run (run_checks_block bb)).
  unfold run_checks_block, block_pass, set_inv, exec_enter, exec_leave.
  run_methods. rewrite !map_inv_with_exec_engine.
  change (pre (with_exec_engine e this) bb) with (pre this bb).
  rewrite statements_loop. run_methods.
  rewrite !map_inv_with_exec_engine. reflexivity.
Qed.

Lemma blocks_loop (bbs : list ar.BasicBlock) (e : ExecutionEngine)
    (this : FunctionFixpoint) :
  trace_of (for_each bbs run_checks_block (with_exec_engine e this))
  = concat (map (fun bb =>
                   block_pass (_call_exec_engine this) (_checkers this)
                              (_call_context this) (pre this bb) bb)
                bbs)
  /\ exists e',
      state_of (for_each bbs run_checks_block (with_exec_engine e this))
      = with_exec_engine e' this.
Proof.
  revert e. induction bbs as [| bb rest IH]; intros e.
  - split; [reflexivity | now exists e].
  - rewrite for_each_cons, run_checks_block_run.
    rewrite !state_of_pair, !trace_of_pair.
    destruct (IH {| inv := exec_leave_sem bb
                     (foldl (fun d stmt =>
                               transfer_sem (_call_exec_engine this) stmt d)
                            (exec_enter_sem bb (pre this bb))
                            (ar.statements bb)) |}) as [Ht [e' Hs]].
    split.
    + rewrite Ht. reflexivity.
    + exists e'. exact Hs.
Qed.

(** The whole check pass: the trace it leaves, and the object it leaves. *)
Lemma run_checks_run (this : FunctionFixpoint) :
  trace_of (run_checks this)
  = callee_notice Logger_start_callee (_call_context this) (_function this)
    ++ [CallEngine_mark_check_callees]
    ++ concat (map (fun bb =>
                      block_pass (checking (_call_exec_engine this))
                                 (_checkers this) (_call_context this)
                                 (pre this bb) bb)
                   (ar.blocks (cfg this)))
    ++ callee_notice Logger_end_callee (_call_context this) (_function this)
  /\ exists e',
      state_of (run_checks this)
      = with_exec_engine e'
          (with_call_exec_engine (checking (_call_exec_engine this)) this).
Proof.
  pose (s1 := with_call_exec_engine (checking (_call_exec_engine this)) this).
  destruct (blocks_loop (ar.blocks (cfg this)) (_exec_engine s1) s1)
    as [Ht [e' Hs]].
  rewrite with_exec_engine_self in Ht, Hs.
  assert (Hmark : state_of (mark_check_callees this) = s1
                  /\ trace_of (mark_check_callees this)
                     = [CallEngine_mark_check_callees])
    by (split; reflexivity).
  destruct Hmark as [Hmark_s Hmark_t].
  unfold run_checks, callee_notice, start_callee, end_callee.
  destruct (empty (_call_context this)) eqn:Hempty.
  - run_methods. rewrite Hempty. cbn [negb]. run_methods.
    rewrite Hmark_s, Hmark_t. change (cfg s1) with (cfg this).
    rewrite Hs, Ht.
    change (_call_context (with_exec_engine e' s1))
      with (_call_context this).
    rewrite Hempty. cbn [negb]. run_methods.
    split; [reflexivity | now exists e'].
  - run_methods. rewrite Hempty. cbn [negb]. run_methods.
    rewrite Hmark_s, Hmark_t. change (cfg s1) with (cfg this).
    rewrite Hs, Ht.
    change (_call_context (with_exec_engine e' s1))
      with (_call_context this).
    rewrite Hempty. cbn [negb]. run_methods.
    split; [reflexivity | now exists e'].
Qed.


Lemma filter_checks (stmt : ar.Statement) (d : AbstractDomain)
    (c : CallContext) (checkers : list Checker) :
  List.filter is_check
    (map (fun checker => Checker_check checker stmt d c) checkers)
  = map (fun checker => Checker_check checker stmt d c) checkers.
Proof.
  induction checkers as [| checker rest IH]; [reflexivity |].
  simpl. now rewrite IH.
Qed.

(** C5. The check pass leaves this trace: the start notice when the call
    context is not empty, the switch of the call engine to checking
    callees, then for every block of the graph, in order, the stored
    pre-invariant installed, the block entered, and for every statement in
    order every checker called on the invariant held just before that
    statement when and only when the statement comes from the frontend,
    followed by the statement's transfer, then the block left; and last the
    end notice when the call context is not empty. For a block [s1; s2; s3]
    where [s1] and [s3] come from the frontend and [s2] does not, the
    checker calls are those of every checker on [s1] with the invariant at
    block entry, then those of every checker on [s3] with the invariant
    after the transfers of [s1] and [s2]: two calls for each checker. *)
Theorem run_checks_protocol (this : FunctionFixpoint) :
  trace_of (run_checks this)
  = callee_notice Logger_start_callee (_call_context this) (_function this)
    ++ [CallEngine_mark_check_callees]
    ++ concat (map (fun bb =>
                      block_pass (checking (_call_exec_engine this))
                                 (_checkers this) (_call_context this)
                                 (pre this bb) bb)
                   (ar.blocks (cfg this)))
    ++ callee_notice Logger_end_callee (_call_context this) (_function this)
  /\ forall bb s1 s2 s3,
      ar.statements bb = [s1; s2; s3] ->
      ar.has_frontend s1 = true ->
      ar.has_frontend s2 = false ->
      ar.has_frontend s3 = true ->
      let at_entry := exec_enter_sem bb (pre this bb) in
      let before_s3 :=
        transfer_sem (_call_exec_engine this) s2
          (transfer_sem (_call_exec_engine this) s1 at_entry) in
      List.filter is_check (trace_of (run_checks_block bb this))
      = map (fun checker =>
               Checker_check checker s1 at_entry (_call_context this))
            (_checkers this)
        ++ map (fun checker =>
                  Checker_check checker s3 before_s3 (_call_context this))
               (_checkers this)
      /\ length (List.filter is_check (trace_of (run_checks_block bb this)))
         = (2 * length (_checkers this))%nat.
Proof.
  split; [exact (proj1 (run_checks_run this)) |].
  intros bb s1 s2 s3 Hstmts Hs1 Hs2 Hs3 at_entry before_s3.
  assert (Hchecks :
            List.filter is_check (trace_of (run_checks_block bb this))
            = map (fun checker =>
                     Checker_check checker s1 at_entry (_call_context this))
                  (_checkers this)
              ++ map (fun checker =>
                        Checker_check checker s3 before_s3
                                      (_call_context this))
                     (_checkers this)).
  { rewrite <- (with_exec_engine_self this) at 1.
    rewrite run_checks_block_run, trace_of_pair.
    unfold block_pass, statement_pass, invariant_before.
    rewrite Hstmts. simpl. rewrite Hs1, Hs2, Hs3. simpl.
    repeat (rewrite ?List.filter_app, ?filter_checks, ?app_nil_r;
            progress simpl).
    rewrite ?List.filter_app, ?filter_checks, ?app_nil_r. reflexivity. }
  split; [exact Hchecks |].
  rewrite Hchecks, length_app, !length_map. lia.
Qed.

End CheckPass.

Section FixpointPass.

Context `{!AbstractDomainOps} `{!EngineSemantics} `{!ar.Bundle}.

Lemma same_members_refl (a : FunctionFixpoint) : same_members a a.
Proof. unfold same_members. tauto. Qed.

Lemma same_members_trans (a b c : FunctionFixpoint) :
  same_members a b -> same_members b c -> same_members a c.
Proof. unfold same_members. intuition congruence. Qed.

Lemma same_members_map_inv (f : AbstractDomain -> AbstractDomain)
    (a : FunctionFixpoint) :
  same_members a (map_inv f a).
Proof. unfold same_members. simpl. tauto. Qed.

(** A property of the object and a property of the events, kept by every
    turn of a loop, are kept by the loop. *)
Lemma for_each_invariant {X} (I : FunctionFixpoint -> Prop)
    (P : Event -> Prop) (body : X -> M unit) :
  (forall x s, I s ->
               I (state_of (body x s)) /\ Forall P (trace_of (body x s))) ->
  forall l s, I s ->
              I (state_of (for_each l body s))
              /\ Forall P (trace_of (for_each l body s)).
Proof.
  intros Hbody l. induction l as [| x rest IH]; intros s Hs.
  - rewrite for_each_nil, state_of_pair, trace_of_pair. now split.
  - rewrite for_each_cons, state_of_pair, trace_of_pair.
    destruct (Hbody x s Hs) as [Hs1 Ht1].
    destruct (IH _ Hs1) as [Hs2 Ht2].
    split; [exact Hs2 |]. apply Forall_app. now split.
Qed.

Lemma transfer_loop_kept (s0 : FunctionFixpoint) (stmts : list ar.Statement)
    (s : FunctionFixpoint) :
  same_members s0 s ->
  same_members s0 (state_of (for_each stmts transfer_function s))
  /\ Forall (quiet s0) (trace_of (for_each stmts transfer_function s)).
Proof.
  apply (for_each_invariant (same_members s0) (quiet s0)).
  intros stmt s' Hs'. unfold transfer_function. run_methods. split.
  - eapply same_members_trans; [exact Hs' |]. apply same_members_map_inv.
  - repeat constructor.
Qed.

Lemma perform_kept (s0 : FunctionFixpoint) (step : DriverStep)
    (s : FunctionFixpoint) :
  same_members s0 s ->
  same_members s0 (state_of (perform step s))
  /\ Forall (quiet s0) (trace_of (perform step s)).
Proof.
  intros Hs.
  destruct step as [bb d | src dest d | bb d | bb d | head | head it kind
                    | head | bb d | bb d]; unfold perform.
  - unfold analyze_node, set_inv, exec_enter, exec_leave. run_methods.
    destruct (transfer_loop_kept s0 (ar.statements bb)
                (map_inv (exec_enter_sem bb) (map_inv (fun _ => d) s)))
      as [Hloop_s Hloop_t].
    { eapply same_members_trans; [exact Hs |]. unfold same_members. simpl.
      tauto. }
    split.
    + eapply same_members_trans; [exact Hloop_s |].
      apply same_members_map_inv.
    + repeat (apply Forall_app; split); try (repeat constructor).
      exact Hloop_t.
  - unfold analyze_edge, set_inv, exec_edge. run_methods. split.
    + eapply same_members_trans; [exact Hs |]. unfold same_members. simpl.
      tauto.
    + repeat constructor.
  - unfold process_pre. run_methods. split; [exact Hs | constructor].
  - unfold process_post, set_inv, exec_exit. run_methods.
    destruct (bool_decide _) eqn:Hexit; run_methods.
    + split.
      * eapply same_members_trans; [exact Hs |]. unfold same_members. simpl.
        tauto.
      * apply bool_decide_eq_true in Hexit.
        assert (Hf : _function s = _function s0)
          by (symmetry; apply Hs).
        rewrite Hf in Hexit.
        repeat constructor; intros Hnone; congruence.
    + split; [exact Hs | constructor].
  - unfold notify_enter_cycle, start_cycle. run_methods.
    split; [exact Hs | repeat constructor].
  - unfold notify_cycle_iteration, start_cycle_iter. run_methods.
    split; [exact Hs | repeat constructor].
  - unfold notify_leave_cycle, end_cycle. run_methods.
    split; [exact Hs | repeat constructor].
  - run_methods. split; [| constructor].
    eapply same_members_trans; [exact Hs |]. unfold same_members. simpl.
    tauto.
  - run_methods. split; [| constructor].
    eapply same_members_trans; [exact Hs |]. unfold same_members. simpl.
    tauto.
Qed.

Lemma steps_kept (steps : list DriverStep) (s : FunctionFixpoint) :
  same_members s (state_of (for_each steps perform s))
  /\ Forall (quiet s) (trace_of (for_each steps perform s)).
Proof.
  apply (for_each_invariant (same_members s) (quiet s)).
  - intros step s'. apply perform_kept.
  - apply same_members_refl.
Qed.

Context `{!FwdFixpointIterator}.

Lemma driver_kept (inv0 : AbstractDomain) (this : FunctionFixpoint) :
  driven_by_hooks ->
  same_members this (state_of (FwdFixpointIterator_run inv0 this))
  /\ Forall (quiet this) (trace_of (FwdFixpointIterator_run inv0 this)).
Proof.
  intros Hdriver. destruct (Hdriver inv0 this) as [steps ->].
  apply steps_kept.
Qed.

(** The fixpoint pass, whatever the driver: the object and the trace it
    leaves, from those the driver leaves. *)
Lemma run_run (inv0 : AbstractDomain) (this : FunctionFixpoint) :
  let mid := FwdFixpointIterator_run inv0 this in
  state_of (run inv0 this)
  = with_post ∅
      (with_call_exec_engine
         {| context_stable :=
              context_stable (_call_exec_engine (state_of mid));
            convergence_achieved := true;
            check_callees :=
              check_callees (_call_exec_engine (state_of mid)) |}
         (state_of mid))
  /\ trace_of (run inv0 this)
     = callee_notice Logger_start_callee (_call_context this)
                     (_function this)
       ++ trace_of mid
       ++ [CallEngine_mark_convergence_achieved]
       ++ callee_notice Logger_end_callee (_call_context (state_of mid))
                        (_function (state_of mid)).
Proof.
  intros mid.
  unfold run, callee_notice, start_callee, end_callee,
    mark_convergence_achieved, clear_post.
  destruct (empty (_call_context this)) eqn:Hstart;
    run_methods; rewrite Hstart; cbn [negb]; run_methods; fold mid;
    cbn [_call_context _function with_post with_call_exec_engine];
    (destruct (empty (_call_context (state_of mid))) eqn:Hend;
     cbn [negb]; run_methods; split; reflexivity).
Qed.


Lemma run_kept (inv0 : AbstractDomain) (this : FunctionFixpoint) :
  driven_by_hooks ->
  same_members this (state_of (run inv0 this)).
Proof.
  intros Hdriver.
  destruct (run_run inv0 this) as [-> _].
  destruct (driver_kept inv0 this Hdriver) as [Hmid _].
  eapply same_members_trans; [exact Hmid |].
  unfold same_members. simpl. tauto.
Qed.

Lemma run_checks_kept (this : FunctionFixpoint) :
  same_members this (state_of (run_checks this)).
Proof.
  destruct (run_checks_run this) as [_ [e' ->]].
  unfold same_members. simpl. tauto.
Qed.

(** C4. With a driver that acts through the hooks, the fixpoint pass leaves
    this trace: the start notice when the call context is not empty, the
    driver's calls, the mark of convergence on the call engine, and the end
    notice when the call context is not empty. After it the call engine's
    flag [convergence_achieved] is set, no post-invariant is stored, the
    pre-invariants are those the driver left, and the trace holds no
    checker call. *)
Theorem run_protocol (inv0 : AbstractDomain) (this : FunctionFixpoint) :
  driven_by_hooks ->
  trace_of (run inv0 this)
  = callee_notice Logger_start_callee (_call_context this) (_function this)
    ++ trace_of (FwdFixpointIterator_run inv0 this)
    ++ [CallEngine_mark_convergence_achieved]
    ++ callee_notice Logger_end_callee (_call_context this) (_function this)
  /\ convergence_achieved (_call_exec_engine (state_of (run inv0 this)))
     = true
  /\ _post (state_of (run inv0 this)) = ∅
  /\ _pre (state_of (run inv0 this))
     = _pre (state_of (FwdFixpointIterator_run inv0 this))
  /\ Forall (fun e => is_check e = false) (trace_of (run inv0 this)).
Proof.
  intros Hdriver.
  destruct (run_run inv0 this) as [Hstate Htrace].
  destruct (driver_kept inv0 this Hdriver) as [Hmid Hquiet].
  assert (Hc : _call_context (state_of (FwdFixpointIterator_run inv0 this))
               = _call_context this) by (symmetry; apply Hmid).
  assert (Hf : _function (state_of (FwdFixpointIterator_run inv0 this))
               = _function this) by (symmetry; apply Hmid).
  cbv zeta in Htrace. rewrite Hc, Hf in Htrace.
  rewrite Hstate, Htrace.
  repeat split.
  unfold callee_notice.
  repeat (apply Forall_app; split).
  - destruct (empty (_call_context this)); repeat constructor.
  - eapply Forall_impl; [exact Hquiet |]. intros e He. apply He.
  - repeat constructor.
  - destruct (empty (_call_context this)); repeat constructor.
Qed.

(** C10. [process_post] on a block that is not the exit block of the
    function changes nothing and calls nothing: the statement engine is
    given no state and the call engine is not asked for the function-exit
    effect. So it is for every block of a function with no exit block, and
    the fixpoint pass of such a function, with a driver that acts through
    the hooks, never calls the function-exit effect. *)
Theorem process_post_not_exit (this : FunctionFixpoint) :
  (forall bb post,
      ar.exit_block_or_null (ar.body (_function this)) <> Some bb ->
      process_post bb post this = (tt, this, []))
  /\ (ar.exit_block_or_null (ar.body (_function this)) = None ->
      (forall bb post, process_post bb post this = (tt, this, []))
      /\ (driven_by_hooks ->
          forall inv0,
            Forall (fun e => is_exec_exit e = false)
                   (trace_of (run inv0 this)))).
Proof.
  assert (Hskip : forall bb post,
             ar.exit_block_or_null (ar.body (_function this)) <> Some bb ->
             process_post bb post this = (tt, this, [])).
  { intros bb post Hne.
    rewrite (unit_run (process_post bb post)).
    unfold process_post. run_methods.
    rewrite bool_decide_eq_false_2 by exact Hne. run_methods. reflexivity. }
  split; [exact Hskip |].
  intros Hnone. split.
  - intros bb post. apply Hskip. rewrite Hnone. discriminate.
  - intros Hdriver inv0.
    destruct (run_run inv0 this) as [_ ->].
    destruct (driver_kept inv0 this Hdriver) as [_ Hquiet].
    unfold callee_notice.
    repeat (apply Forall_app; split).
    + destruct (empty (_call_context this)); repeat constructor.
    + eapply Forall_impl; [exact Hquiet |].
      intros e He. apply He, Hnone.
    + repeat constructor.
    + destruct (empty _); repeat constructor.
Qed.

End FixpointPass.

Section Construction.

Context `{!AbstractDomainOps} `{!EngineSemantics} `{!ar.Bundle}.

Lemma std_find_end (l : list ar.Function) (f : ar.Function) :
  std_find l f = length l <-> f ∉ l.
Proof.
  induction l as [| x rest IH]; simpl.
  - split; [intros _; apply not_elem_of_nil | reflexivity].
  - rewrite not_elem_of_cons. destruct (Nat.eqb_spec x f) as [-> | Hne].
    + split; [discriminate | intros [Hne _]; now destruct Hne].
    + split.
      * intros Heq. split; [congruence |]. apply IH. lia.
      * intros [_ Hnot]. f_equal. now apply IH.
Qed.

Lemma is_currently_analyzed_true (this : FunctionFixpoint) (f : ar.Function) :
  is_currently_analyzed this f = true <-> f ∈ _analyzed_functions this.
Proof.
  unfold is_currently_analyzed.
  rewrite negb_true_iff, Nat.eqb_neq, std_find_end.
  split; [| tauto].
  intros Hnn. destruct (decide (f ∈ _analyzed_functions this)); tauto.
Qed.

Lemma is_currently_analyzed_false (this : FunctionFixpoint) (f : ar.Function) :
  is_currently_analyzed this f = false <-> f ∉ _analyzed_functions this.
Proof.
  rewrite <- is_currently_analyzed_true.
  destruct (is_currently_analyzed this f); split; congruence.
Qed.

(** C6. Constructing a child from the caller's object places a new object
    at an address of its own. The child's call context is
    [get_context(caller's call context, call)], its analyzed functions are
    the caller's followed by the callee, and the caller's object, with its
    analyzed functions, is what it was, as is every other object. *)
Theorem child_construction (ctx : Context) (heap : gmap nat FunctionFixpoint)
    (caller_addr : nat) (caller : FunctionFixpoint)
    (call : ar.CallBase) (callee : ar.Function) (stable : bool) :
  heap !! caller_addr = Some caller ->
  exists child_addr child heap',
    construct_child ctx heap caller_addr call callee stable
    = Some (child_addr, heap')
    /\ heap' !! child_addr = Some child
    /\ _call_context child
       = CallContextFactory.get_context (_call_context caller) call
    /\ _analyzed_functions child = _analyzed_functions caller ++ [callee]
    /\ heap' !! caller_addr = Some caller
    /\ forall a, a <> child_addr -> heap' !! a = heap !! a.
Proof.
  intros Hcaller. unfold construct_child. rewrite Hcaller.
  assert (Hfresh : heap !! fresh (dom heap) = None)
    by (apply not_elem_of_dom, is_fresh).
  eexists _, _, _. split; [reflexivity |].
  split; [apply lookup_insert_eq |].
  split; [reflexivity |].
  split; [reflexivity |].
  split.
  - rewrite lookup_insert_ne; [exact Hcaller |]. congruence.
  - intros a Ha. apply lookup_insert_ne. congruence.
Qed.

Context `{!FwdFixpointIterator}.

(** Along the active chain, the analyzed functions are the chain, and the
    chain ends with the object's own function. *)
Lemma active_chain (chain : list ar.Function) (this : FunctionFixpoint) :
  driven_by_hooks ->
  active chain this ->
  _analyzed_functions this = chain /\ last chain = Some (_function this).
Proof.
  intros Hdriver Hactive.
  induction Hactive as [ctx checkers entry_point
                       | chain caller ctx call callee stable _ [IHa IHl]
                       | chain this inv0 _ [IHa IHl]
                       | chain this _ [IHa IHl]
                       | chain this step _ [IHa IHl]].
  - split; reflexivity.
  - split; [simpl; now rewrite IHa | apply last_snoc].
  - destruct (run_kept inv0 this Hdriver) as (_ & _ & Hf & _ & _ & Ha & _).
    now rewrite <- Ha, <- Hf.
  - destruct (run_checks_kept this) as (_ & _ & Hf & _ & _ & Ha & _).
    now rewrite <- Ha, <- Hf.
  - destruct (perform_kept this step this (same_members_refl this))
      as [(_ & _ & Hf & _ & _ & Ha & _) _].
    now rewrite <- Ha, <- Hf.
Qed.

(** C7. [is_currently_analyzed(f)] is true exactly when [f] is among the
    analyzed functions of the object. For a child constructed below an
    active chain, with a driver that acts through the hooks, it is true of
    the callee and of every function of the chain, and false of every other
    function. *)
Theorem is_currently_analyzed_membership :
  driven_by_hooks ->
  (forall this f,
      is_currently_analyzed this f = true <-> f ∈ _analyzed_functions this)
  /\ (forall chain caller ctx call callee stable,
         active chain caller ->
         let child := FunctionFixpoint_child ctx caller call callee stable in
         is_currently_analyzed child callee = true
         /\ (forall f, f ∈ chain -> is_currently_analyzed child f = true)
         /\ (forall f, f ∉ chain -> f <> callee ->
                       is_currently_analyzed child f = false)).
Proof.
  intros Hdriver. split; [exact is_currently_analyzed_true |].
  intros chain caller ctx call callee stable Hactive child.
  destruct (active_chain chain caller Hdriver Hactive) as [Ha _].
  assert (Hchild : _analyzed_functions child = chain ++ [callee])
    by (unfold child; simpl; now rewrite Ha).
  split; [| split].
  - apply is_currently_analyzed_true. rewrite Hchild.
    apply elem_of_app. right. apply list_elem_of_singleton. reflexivity.
  - intros f Hf. apply is_currently_analyzed_true. rewrite Hchild.
    apply elem_of_app. now left.
  - intros f Hf Hne. apply is_currently_analyzed_false. rewrite Hchild.
    rewrite elem_of_app, list_elem_of_singleton. tauto.
Qed.

(** C9. The entry-point constructor leaves the analyzed functions as the
    single entry function, and the child constructor leaves the caller's
    followed by the callee, so that an object of either kind answers true
    to [is_currently_analyzed] of its own function when constructed. With
    a driver that acts through the hooks, the two passes and every hook
    leave the analyzed functions and the object's function as they were,
    and every object of the active chain answers true to
    [is_currently_analyzed] of its own function. *)
Theorem own_function_analyzed :
  driven_by_hooks ->
  (forall ctx checkers entry_point,
      let this := FunctionFixpoint_entry ctx checkers entry_point in
      _analyzed_functions this = [entry_point]
      /\ is_currently_analyzed this (_function this) = true)
  /\ (forall ctx caller call callee stable,
         let this := FunctionFixpoint_child ctx caller call callee stable in
         _analyzed_functions this = _analyzed_functions caller ++ [callee]
         /\ is_currently_analyzed this (_function this) = true)
  /\ (forall this inv0,
         _analyzed_functions (state_of (run inv0 this))
         = _analyzed_functions this
         /\ _function (state_of (run inv0 this)) = _function this)
  /\ (forall this,
         _analyzed_functions (state_of (run_checks this))
         = _analyzed_functions this
         /\ _function (state_of (run_checks this)) = _function this)
  /\ (forall this step,
         _analyzed_functions (state_of (perform step this))
         = _analyzed_functions this
         /\ _function (state_of (perform step this)) = _function this)
  /\ (forall chain this,
         active chain this ->
         is_currently_analyzed this (_function this) = true).
Proof.
  intros Hdriver.
  split; [| split; [| split; [| split; [| split]]]].
  - intros ctx checkers entry_point this. split; [reflexivity |].
    apply is_currently_analyzed_true. apply list_elem_of_singleton.
    reflexivity.
  - intros ctx caller call callee stable this. split; [reflexivity |].
    apply is_currently_analyzed_true. apply elem_of_app. right.
    apply list_elem_of_singleton. reflexivity.
  - intros this inv0.
    destruct (run_kept inv0 this Hdriver) as (_ & _ & Hf & _ & _ & Ha & _).
    now split.
  - intros this.
    destruct (run_checks_kept this) as (_ & _ & Hf & _ & _ & Ha & _).
    now split.
  - intros this step.
    destruct (perform_kept this step this (same_members_refl this))
      as [(_ & _ & Hf & _ & _ & Ha & _) _].
    now split.
  - intros chain this Hactive.
    destruct (active_chain chain this Hdriver Hactive) as [Ha Hl].
    apply is_currently_analyzed_true. rewrite Ha.
    apply last_Some_elem_of, Hl.
Qed.

End Construction.

(** * Further properties of the hooks and the passes *)

Section Hooks.

Context `{!AbstractDomainOps} `{!EngineSemantics} `{!ar.Bundle}.

Lemma result_eta {A} (r : A * FunctionFixpoint * list Event) :
  r = (value_of r, state_of r, trace_of r).
Proof. now destruct r as [[a s] t]. Qed.

Lemma transfer_loop_run (stmts : list ar.Statement) (d : AbstractDomain)
    (this : FunctionFixpoint) :
  for_each stmts transfer_function (with_exec_engine {| inv := d |} this)
  = (tt,
     with_exec_engine
       {| inv := foldl (fun d stmt =>
                          transfer_sem (_call_exec_engine this) stmt d)
                       d stmts |} this,
     map Transfer_function stmts).
Proof.
  revert d. induction stmts as [| stmt rest IH]; intros d; [reflexivity |].
  rewrite for_each_cons.
  change (transfer_function stmt (with_exec_engine {| inv := d |} this))
    with (tt,
          with_exec_engine
            {| inv := transfer_sem (_call_exec_engine this) stmt d |} this,
          [Transfer_function stmt]).
  rewrite state_of_pair, trace_of_pair, IH. reflexivity.
Qed.

Lemma analyze_node_result (bb : ar.BasicBlock) (d : AbstractDomain)
    (e : ExecutionEngine) (this : FunctionFixpoint) :
  analyze_node bb d (with_exec_engine e this)
  = (block_post (_call_exec_engine this) bb d,
     with_exec_engine
       {| inv := block_post (_call_exec_engine this) bb d |} this,
     [Engine_set_inv d; Engine_exec_enter bb]
     ++ map Transfer_function (ar.statements bb)
     ++ [Engine_exec_leave bb]).
Proof.
  assert (Hloop := transfer_loop_run (ar.statements bb)
                     (exec_enter_sem bb d) this).
  rewrite (result_eta (analyze_node bb d (with_exec_engine e this))).
  unfold analyze_node, set_inv, exec_enter, exec_leave, block_post.
  run_methods. rewrite !map_inv_with_exec_engine. cbn [inv].
  change (fun stmt : ar.Statement => transfer_function stmt)
    with transfer_function.
  rewrite Hloop. run_methods. reflexivity.
Qed.



Lemma statement_without_checks (checkers : list Checker) (c : CallContext)
    (stmt : ar.Statement) (d : AbstractDomain) :
  List.filter (fun e => negb (is_check e))
              (statement_pass checkers c stmt d)
  = [Transfer_function stmt].
Proof.
  unfold statement_pass. rewrite List.filter_app.
  destruct (ar.has_frontend stmt); [| reflexivity].
  induction checkers as [| checker more IH]; [reflexivity |]. exact IH.
Qed.

Lemma concat_imap_projection {B} (p : Event -> list B)
    (g : nat -> ar.Statement -> list Event) (h : ar.Statement -> list B) :
  (forall i stmt, flat_map p (g i stmt) = h stmt) ->
  forall stmts,
    flat_map p (concat (imap g stmts)) = flat_map h stmts.
Proof.
  intros Hg stmts. revert g Hg.
  induction stmts as [| stmt rest IH]; intros g Hg; [reflexivity |].
  rewrite imap_cons. cbn [concat flat_map].
  rewrite flat_map_app, Hg, IH; [reflexivity |].
  intros i stmt'. apply Hg.
Qed.

Lemma filter_as_flat_map {B} (f : B -> bool) (l : list B) :
  List.filter f l = flat_map (fun x => if f x then [x] else []) l.
Proof.
  induction l as [| x rest IH]; [reflexivity |].
  simpl. rewrite IH. now destruct (f x).
Qed.

Lemma statements_without_checks (checkers : list Checker) (c : CallContext)
    (stmts : list ar.Statement)
    (f : nat -> ar.Statement -> AbstractDomain) :
  List.filter (fun e => negb (is_check e))
    (concat (imap (fun i stmt => statement_pass checkers c stmt (f i stmt))
                  stmts))
  = map Transfer_function stmts.
Proof.
  rewrite filter_as_flat_map.
  rewrite (concat_imap_projection _ _ (fun stmt => [Transfer_function stmt])).
  - induction stmts as [| stmt rest IH]; [reflexivity |].
    simpl. now rewrite IH.
  - intros i stmt. rewrite <- filter_as_flat_map.
    apply statement_without_checks.
Qed.



End Hooks.

Section CheckOrder.

Context `{!AbstractDomainOps} `{!EngineSemantics} `{!ar.Bundle}.

Lemma omap_as_flat_map {A B} (f : A -> option B) (l : list A) :
  omap f l = flat_map (fun x => option_list (f x)) l.
Proof.
  induction l as [| x rest IH]; [reflexivity |].
  cbn [flat_map]. rewrite <- IH. simpl. now destruct (f x).
Qed.

Lemma flat_map_filter {A B} (f : A -> bool) (g : A -> list B) (l : list A) :
  flat_map (fun x => if f x then g x else []) l
  = flat_map g (List.filter f l).
Proof.
  induction l as [| x rest IH]; [reflexivity |].
  simpl. rewrite IH. now destruct (f x).
Qed.

Lemma statement_pass_checked (checkers : list Checker) (c : CallContext)
    (stmt : ar.Statement) (d : AbstractDomain) :
  flat_map (fun e => option_list (checked e))
           (statement_pass checkers c stmt d)
  = if ar.has_frontend stmt
    then map (fun checker => (stmt, checker)) checkers
    else [].
Proof.
  unfold statement_pass. rewrite flat_map_app. cbn [flat_map].
  rewrite app_nil_r.
  destruct (ar.has_frontend stmt); [| reflexivity].
  induction checkers as [| checker more IH]; [reflexivity |].
  simpl. now rewrite IH.
Qed.

Lemma statement_pass_transferred (checkers : list Checker) (c : CallContext)
    (stmt : ar.Statement) (d : AbstractDomain) :
  flat_map (fun e => option_list (transferred e))
           (statement_pass checkers c stmt d)
  = [stmt].
Proof.
  unfold statement_pass. rewrite flat_map_app.
  destruct (ar.has_frontend stmt); [| reflexivity].
  induction checkers as [| checker more IH]; [reflexivity |]. exact IH.
Qed.

Lemma block_pass_checked (ce : CallExecutionEngine) (checkers : list Checker)
    (c : CallContext) (stored : AbstractDomain) (bb : ar.BasicBlock) :
  flat_map (fun e => option_list (checked e))
           (block_pass ce checkers c stored bb)
  = flat_map (fun stmt => map (fun checker => (stmt, checker)) checkers)
             (List.filter ar.has_frontend (ar.statements bb)).
Proof.
  unfold block_pass. rewrite !flat_map_app.
  cbn [flat_map app option_list option_rect checked].
  rewrite app_nil_r, <- flat_map_filter.
  apply concat_imap_projection.
  intros i stmt. apply statement_pass_checked.
Qed.

Lemma block_pass_transferred (ce : CallExecutionEngine)
    (checkers : list Checker) (c : CallContext) (stored : AbstractDomain)
    (bb : ar.BasicBlock) :
  flat_map (fun e => option_list (transferred e))
           (block_pass ce checkers c stored bb)
  = ar.statements bb.
Proof.
  unfold block_pass. rewrite !flat_map_app.
  cbn [flat_map app option_list option_rect transferred].
  rewrite app_nil_r.
  rewrite (concat_imap_projection _ _ (fun stmt => [stmt])).
  - induction (ar.statements bb) as [| stmt rest IH]; [reflexivity |].
    simpl. now rewrite IH.
  - intros i stmt. apply statement_pass_transferred.
Qed.

Lemma callee_notice_silent {B} (p : Event -> list B)
    (mk : CallContext -> ar.Function -> Event) (c : CallContext)
    (f : ar.Function) :
  (forall c' f', p (mk c' f') = []) ->
  flat_map p (callee_notice mk c f) = [].
Proof.
  intros Hp. unfold callee_notice.
  destruct (empty c); [reflexivity |]. simpl. now rewrite Hp.
Qed.

Lemma blocks_projection {B} (p : Event -> list B)
    (g : ar.BasicBlock -> list Event) (h : ar.BasicBlock -> list B) :
  (forall bb, flat_map p (g bb) = h bb) ->
  forall bbs, flat_map p (concat (map g bbs)) = flat_map h bbs.
Proof.
  intros Hg bbs. induction bbs as [| bb rest IH]; [reflexivity |].
  cbn [map concat flat_map]. now rewrite flat_map_app, Hg, IH.
Qed.

(** X5. The checker calls of the check pass, in the order they are made,
    are: for every block of the graph in order, for every statement of the
    block that comes from the frontend in order, every checker in order.
    Its calls of [transfer_function] are one for every statement of every
    block, in order, from the frontend or not. *)
Theorem run_checks_order (this : FunctionFixpoint) :
  omap checked (trace_of (run_checks this))
  = flat_map
      (fun bb =>
         flat_map (fun stmt =>
                     map (fun checker => (stmt, checker)) (_checkers this))
                  (List.filter ar.has_frontend (ar.statements bb)))
      (ar.blocks (cfg this))
  /\ omap transferred (trace_of (run_checks this))
     = flat_map ar.statements (ar.blocks (cfg this)).
Proof.
  rewrite !omap_as_flat_map.
  rewrite (proj1 (run_checks_run this)).
  rewrite !flat_map_app.
  rewrite !callee_notice_silent by reflexivity.
  cbn [flat_map app option_list option_rect checked transferred].
  rewrite !app_nil_r. split.
  - apply blocks_projection. intros bb. apply block_pass_checked.
  - apply blocks_projection. intros bb. apply block_pass_transferred.
Qed.

(** X6. What the check pass does is decided by the stored pre-invariants
    and not by the stored post-invariants or by the invariant the statement
    engine holds when it starts: replacing either leaves its calls the
    same. *)
Theorem run_checks_reads_pre (this : FunctionFixpoint)
    (t : gmap ar.BasicBlock AbstractDomain) (e : ExecutionEngine) :
  trace_of (run_checks (with_post t (with_exec_engine e this)))
  = trace_of (run_checks this).
Proof.
  rewrite (proj1 (run_checks_run this)).
  rewrite (proj1 (run_checks_run (with_post t (with_exec_engine e this)))).
  reflexivity.
Qed.

(** X7. Running the check pass a second time makes the same calls as the
    first, and leaves both invariant tables as they were before the
    first. *)
Theorem run_checks_twice (this : FunctionFixpoint) :
  trace_of (run_checks (state_of (run_checks this)))
  = trace_of (run_checks this)
  /\ _pre (state_of (run_checks (state_of (run_checks this)))) = _pre this
  /\ _post (state_of (run_checks (state_of (run_checks this))))
     = _post this.
Proof.
  destruct (run_checks_run this) as [Ht [e1 Hs]].
  destruct (run_checks_run (state_of (run_checks this))) as [Ht2 [e2 Hs2]].
  rewrite Hs2, Ht2, Ht, Hs. repeat split.
Qed.

(** X8. [is_decreasing_iterations_fixpoint] is monotone in the iteration:
    for the same two states, once it answers true at an iteration it
    answers true at every later one. *)
Theorem is_decreasing_iterations_fixpoint_monotone (this : FunctionFixpoint)
    (head : ar.BasicBlock) (i j : Z) (before after : AbstractDomain) :
  i <= j ->
  is_decreasing_iterations_fixpoint this head i before after = true ->
  is_decreasing_iterations_fixpoint this head j before after = true.
Proof.
  unfold is_decreasing_iterations_fixpoint. intros Hij.
  rewrite !orb_true_iff. intros [Hcap | Hleq]; [left | now right].
  destruct (narrowing_iterations (_opts this)) as [cap |]; [| discriminate].
  apply Z.geb_le. apply Z.geb_le in Hcap. lia.
Qed.

(** X9. An object constructed from a context with no profiler, or whose
    profiler has no profile for the function, never takes a threshold:
    beyond the joined iterations [extrapolate] under [Widen] is the plain
    widening at every iteration, and [refine] under [Narrow] is the plain
    narrowing at every iteration. *)
Theorem no_profile_no_threshold (ctx : Context) (f : ar.Function)
    (this : FunctionFixpoint) :
  (fixpoint_profiler ctx = None
   \/ exists profiler, fixpoint_profiler ctx = Some profiler
                       /\ profile profiler f = None) ->
  ((exists checkers, this = FunctionFixpoint_entry ctx checkers f)
   \/ (exists caller call stable,
          this = FunctionFixpoint_child ctx caller call f stable)) ->
  forall head iteration before after,
    (widening_strategy (opts ctx) = WideningStrategy.Widen ->
     loop_iterations (opts ctx) < iteration ->
     extrapolate this head iteration before after
     = Returns (widen_with before after))
    /\ (narrowing_strategy (opts ctx) = NarrowingStrategy.Narrow ->
        refine this head iteration before after
        = Returns (narrow_with before after)).
Proof.
  intros Hprofiler Hthis head iteration before after.
  assert (Hnone : _profile this = None /\ _opts this = opts ctx).
  { destruct Hthis as [[checkers ->] | (caller & call & stable & ->)];
      simpl; (split; [| reflexivity]);
      destruct Hprofiler as [-> | (profiler & -> & Hp)];
      try reflexivity; exact Hp. }
  destruct Hnone as [Hnone Hopts].
  unfold extrapolate, refine. rewrite Hnone, Hopts. split.
  - intros Hw Hgt. rewrite (proj2 (Z.leb_gt _ _) Hgt), Hw.
    now destruct (iteration =? _).
  - intros Hn. rewrite Hn. now destruct (iteration =? 1).
Qed.

End CheckOrder.

Section DriverFrame.

Context `{!AbstractDomainOps} `{!EngineSemantics} `{!ar.Bundle}.

Lemma same_but_invariants_refl (s : FunctionFixpoint) :
  same_but_invariants s s.
Proof. exists (_pre s), (_post s), (_exec_engine s). now destruct s. Qed.

Lemma same_but_invariants_engine (s0 s : FunctionFixpoint)
    (e : ExecutionEngine) :
  same_but_invariants s0 s -> same_but_invariants s0 (with_exec_engine e s).
Proof. intros (p & q & e0 & ->). now exists p, q, e. Qed.

Lemma same_but_invariants_pre (s0 s : FunctionFixpoint)
    (t : gmap ar.BasicBlock AbstractDomain) :
  same_but_invariants s0 s -> same_but_invariants s0 (with_pre t s).
Proof. intros (p & q & e0 & ->). now exists t, q, e0. Qed.

Lemma same_but_invariants_post (s0 s : FunctionFixpoint)
    (t : gmap ar.BasicBlock AbstractDomain) :
  same_but_invariants s0 s -> same_but_invariants s0 (with_post t s).
Proof. intros (p & q & e0 & ->). now exists p, t, e0. Qed.

Lemma same_but_invariants_members (s0 s : FunctionFixpoint) :
  same_but_invariants s0 s ->
  same_members s0 s /\ _call_exec_engine s = _call_exec_engine s0.
Proof.
  intros (p & q & e0 & ->). unfold same_members. simpl. tauto.
Qed.

Lemma exits_own_other (s0 : FunctionFixpoint) (e : Event) :
  is_exec_exit e = false -> exits_own s0 e.
Proof. intros He f ->. discriminate. Qed.

Lemma transfers_hook_event (s0 : FunctionFixpoint)
    (stmts : list ar.Statement) :
  Forall (hook_event s0) (map Transfer_function stmts).
Proof.
  induction stmts as [| stmt rest IH]; constructor; [| exact IH].
  split; [reflexivity | now apply exits_own_other].
Qed.

Lemma perform_frame (s0 : FunctionFixpoint) (step : DriverStep)
    (s : FunctionFixpoint) :
  same_but_invariants s0 s ->
  same_but_invariants s0 (state_of (perform step s))
  /\ Forall (hook_event s0) (trace_of (perform step s)).
Proof.
  intros Hs.
  assert (Hplain : forall e, is_callee_notice e = false ->
                             is_exec_exit e = false -> hook_event s0 e)
    by (intros e Hn He; split; [exact Hn | now apply exits_own_other]).
  destruct step as [bb d | src dest d | bb d | bb d | head | head it kind
                    | head | bb d | bb d]; unfold perform.
  - rewrite state_bind, trace_bind.
    pose proof (analyze_node_result bb d (_exec_engine s) s) as Hn.
    rewrite with_exec_engine_self in Hn. rewrite Hn. run_methods. split.
    + now apply same_but_invariants_engine.
    + rewrite app_nil_r. repeat (apply Forall_app; split);
        try apply transfers_hook_event;
        repeat constructor; now apply Hplain.
  - unfold analyze_edge, set_inv, exec_edge. run_methods. split.
    + unfold map_inv. now repeat apply same_but_invariants_engine.
    + repeat constructor; now apply Hplain.
  - unfold process_pre. run_methods. split; [exact Hs | constructor].
  - unfold process_post, set_inv, exec_exit. run_methods.
    destruct (bool_decide _); run_methods.
    + split.
      * unfold map_inv. now apply same_but_invariants_engine.
      * destruct (same_but_invariants_members s0 s Hs) as [Hm _].
        repeat constructor; try (now apply Hplain).
        intros f Hf. injection Hf as <-. symmetry. apply Hm.
    + split; [exact Hs | constructor].
  - unfold notify_enter_cycle, start_cycle. run_methods.
    split; [exact Hs | repeat constructor; now apply Hplain].
  - unfold notify_cycle_iteration, start_cycle_iter. run_methods.
    split; [exact Hs | repeat constructor; now apply Hplain].
  - unfold notify_leave_cycle, end_cycle. run_methods.
    split; [exact Hs | repeat constructor; now apply Hplain].
  - run_methods. split; [| constructor].
    now apply same_but_invariants_pre.
  - run_methods. split; [| constructor].
    now apply same_but_invariants_post.
Qed.

Context `{!FwdFixpointIterator}.

Lemma driver_frame (inv0 : AbstractDomain) (this : FunctionFixpoint) :
  driven_by_hooks ->
  same_but_invariants this (state_of (FwdFixpointIterator_run inv0 this))
  /\ Forall (hook_event this) (trace_of (FwdFixpointIterator_run inv0 this)).
Proof.
  intros Hdriver. destruct (Hdriver inv0 this) as [steps ->].
  apply (for_each_invariant (same_but_invariants this) (hook_event this)).
  - intros step s. apply perform_frame.
  - apply same_but_invariants_refl.
Qed.

Lemma filter_none {B} (f : B -> bool) (l : list B) :
  Forall (fun x => f x = false) l -> List.filter f l = [].
Proof.
  induction 1 as [| x rest Hx _ IH]; [reflexivity |].
  simpl. now rewrite Hx.
Qed.

Lemma block_pass_no_notice (ce : CallExecutionEngine)
    (checkers : list Checker) (c : CallContext) (stored : AbstractDomain)
    (bb : ar.BasicBlock) (f : Event -> bool) :
  (forall e, f e = true -> is_callee_notice e = true \/ is_exec_exit e = true)
  ->
  List.filter f (block_pass ce checkers c stored bb) = [].
Proof.
  intros Hf.
  assert (Hno : forall e, is_callee_notice e = false ->
                          is_exec_exit e = false -> f e = false).
  { intros e Hn He. destruct (f e) eqn:Hfe; [| reflexivity].
    destruct (Hf e Hfe); congruence. }
  rewrite filter_as_flat_map. unfold block_pass.
  rewrite !flat_map_app. cbn [flat_map app].
  rewrite !Hno by reflexivity.
  rewrite (concat_imap_projection _ _ (fun _ => [])).
  - cbn [app]. now induction (ar.statements bb).
  - intros i stmt. rewrite <- filter_as_flat_map. apply filter_none.
    unfold statement_pass. apply Forall_app.
    split; [| repeat constructor; now apply Hno].
    destruct (ar.has_frontend stmt); [| constructor].
    induction checkers as [| checker more IH]; constructor; [| exact IH].
    now apply Hno.
Qed.

Lemma blocks_filter_none (f : Event -> bool)
    (g : ar.BasicBlock -> list Event) (bbs : list ar.BasicBlock) :
  (forall bb, List.filter f (g bb) = []) ->
  List.filter f (concat (map g bbs)) = [].
Proof.
  intros Hg. induction bbs as [| bb rest IH]; [reflexivity |].
  cbn [map concat]. now rewrite List.filter_app, Hg, IH.
Qed.

(** X10. Among the calls of either pass, the notices to the logger about
    the callee are: none when the call context is the empty one, and
    otherwise one start notice and one end notice, in this order, for the
    object's context and function. For the fixpoint pass the driver is one
    that acts through the hooks. *)
Theorem passes_callee_notices (inv0 : AbstractDomain)
    (this : FunctionFixpoint) :
  driven_by_hooks ->
  List.filter is_callee_notice (trace_of (run inv0 this))
  = callee_notice Logger_start_callee (_call_context this) (_function this)
    ++ callee_notice Logger_end_callee (_call_context this) (_function this)
  /\ List.filter is_callee_notice (trace_of (run_checks this))
     = callee_notice Logger_start_callee (_call_context this)
                     (_function this)
       ++ callee_notice Logger_end_callee (_call_context this)
                        (_function this).
Proof.
  intros Hdriver.
  assert (Hnotice : forall mk,
             (forall c f, is_callee_notice (mk c f) = true) ->
             List.filter is_callee_notice
               (callee_notice mk (_call_context this) (_function this))
             = callee_notice mk (_call_context this) (_function this)).
  { intros mk Hmk. unfold callee_notice.
    destruct (empty (_call_context this)); [reflexivity |].
    simpl. now rewrite Hmk. }
  split.
  - destruct (run_run inv0 this) as [_ ->].
    destruct (driver_frame inv0 this Hdriver) as [Hmid Hquiet].
    destruct (same_but_invariants_members _ _ Hmid) as [Hm _].
    assert (Hc : _call_context (state_of (FwdFixpointIterator_run inv0 this))
                 = _call_context this) by (symmetry; apply Hm).
    assert (Hf : _function (state_of (FwdFixpointIterator_run inv0 this))
                 = _function this) by (symmetry; apply Hm).
    rewrite Hc, Hf, !List.filter_app, !Hnotice by reflexivity.
    rewrite (filter_none is_callee_notice
               (trace_of (FwdFixpointIterator_run inv0 this))).
    + reflexivity.
    + eapply Forall_impl; [exact Hquiet |]. intros e He. apply He.
  - rewrite (proj1 (run_checks_run this)).
    rewrite !List.filter_app, !Hnotice by reflexivity.
    rewrite blocks_filter_none; [reflexivity |].
    intros bb. apply block_pass_no_notice. intros e He. now left.
Qed.

(** X11. The function-exit effect is asked of the call engine for the
    object's own function only: every such call of the fixpoint pass, with
    a driver that acts through the hooks, names the function of the object;
    the check pass makes no such call. *)
Theorem exit_effect_own_function (inv0 : AbstractDomain)
    (this : FunctionFixpoint) :
  driven_by_hooks ->
  Forall (exits_own this) (trace_of (run inv0 this))
  /\ List.filter is_exec_exit (trace_of (run_checks this)) = [].
Proof.
  intros Hdriver. split.
  - destruct (run_run inv0 this) as [_ ->].
    destruct (driver_frame inv0 this Hdriver) as [_ Hquiet].
    unfold callee_notice.
    repeat (apply Forall_app; split).
    + destruct (empty _); repeat constructor. now apply exits_own_other.
    + eapply Forall_impl; [exact Hquiet |]. intros e He. apply He.
    + repeat constructor. now apply exits_own_other.
    + destruct (empty _); repeat constructor. now apply exits_own_other.
  - rewrite (proj1 (run_checks_run this)).
    unfold callee_notice. rewrite !List.filter_app.
    rewrite blocks_filter_none.
    + now destruct (empty (_call_context this)).
    + intros bb. apply block_pass_no_notice. intros e He. now right.
Qed.

End DriverFrame.

(** * The properties on the sample program *)

Import Sample.

Lemma straight_line_driven_by_hooks : driven_by_hooks.
Proof. intros inv0 this. eexists. reflexivity. Qed.

Lemma extrapolate_policy_witness :
  (is_unsigned 2 /\ is_unsigned 3 /\ is_unsigned 4
   /\ is_unsigned (loop_iterations (_opts entry)))
  /\ extrapolate entry 1%nat 2 "a" "b" = Returns "join(a,b)"
  /\ extrapolate entry 1%nat 3 "a" "b" = Returns "widen_threshold(a,b,t)"
  /\ extrapolate entry 1%nat 4 "a" "b" = Returns "widen(a,b)".
Proof.
  assert (U2 : is_unsigned 2) by (unfold is_unsigned, UINT_BITS; lia).
  assert (U3 : is_unsigned 3) by (unfold is_unsigned, UINT_BITS; lia).
  assert (U4 : is_unsigned 4) by (unfold is_unsigned, UINT_BITS; lia).
  assert (UL : is_unsigned (loop_iterations (_opts entry)))
    by (unfold is_unsigned, UINT_BITS; simpl; lia).
  split; [tauto |].
  split; [| split].
  - destruct (extrapolate_policy entry 1%nat 2 "a" "b" U2 UL) as (Hj & _).
    apply Hj. simpl. lia.
  - destruct (extrapolate_policy entry 1%nat 3 "a" "b" U3 UL)
      as (_ & Hw & _).
    destruct Hw as [Ht _]; [simpl; lia | reflexivity |].
    exact (Ht hints "t" eq_refl eq_refl eq_refl).
  - destruct (extrapolate_policy entry 1%nat 4 "a" "b" U4 UL)
      as (_ & Hw & _).
    destruct Hw as [_ Hp]; [simpl; lia | reflexivity |].
    apply Hp. left. simpl. lia.
Defined.

Lemma refine_policy_witness :
  narrowing_strategy (_opts entry) = NarrowingStrategy.Narrow
  /\ refine entry 1%nat 1 "a" "b" = Returns "narrow_threshold(a,b,t)"
  /\ refine entry 1%nat 2 "a" "b" = Returns "narrow(a,b)"
  /\ refine entry 2%nat 1 "a" "b" = Returns "narrow(a,b)".
Proof.
  split; [reflexivity |].
  split; [| split].
  - destruct (refine_policy entry 1%nat 1 "a" "b") as [Hn _].
    destruct (Hn eq_refl) as [Ht _].
    exact (Ht hints "t" eq_refl eq_refl eq_refl).
  - destruct (refine_policy entry 1%nat 2 "a" "b") as [Hn _].
    destruct (Hn eq_refl) as [_ Hp].
    apply Hp. left. lia.
  - destruct (refine_policy entry 2%nat 1 "a" "b") as [Hn _].
    destruct (Hn eq_refl) as [_ Hp].
    apply Hp. right. right. exists hints. split; reflexivity.
Defined.

Lemma is_decreasing_iterations_fixpoint_spec_witness :
  narrowing_iterations (_opts entry) = Some 3
  /\ leq "a" "b" = false
  /\ is_decreasing_iterations_fixpoint entry 1%nat 3 "a" "b" = true
  /\ is_decreasing_iterations_fixpoint entry 1%nat 2 "a" "a" = true.
Proof.
  split; [reflexivity |].
  split; [reflexivity |].
  split.
  - exact (proj2 (is_decreasing_iterations_fixpoint_spec entry 1%nat 3
                    "a" "b") 3 eq_refl).
  - apply (proj1 (is_decreasing_iterations_fixpoint_spec entry 1%nat 2
                    "a" "a")).
    right. reflexivity.
Defined.

Lemma unexpected_strategy_unreachable_witness :
  (widening_strategy (_opts entry) = WideningStrategy.Widen
   /\ narrowing_strategy (_opts entry) = NarrowingStrategy.Narrow)
  /\ (exists d, extrapolate entry 1%nat 3 "a" "b" = Returns d)
  /\ (exists d, refine entry 1%nat 1 "a" "b" = Returns d)
  /\ extrapolate misconfigured 1%nat 3 "a" "b"
     = Unreachable "unexpected strategy"
  /\ refine misconfigured 1%nat 1 "a" "b"
     = Unreachable "unexpected strategy".
Proof.
  split; [split; reflexivity |].
  destruct (unexpected_strategy_unreachable entry 1%nat 3 "a" "b")
    as (Hvalid & _ & _).
  destruct (Hvalid (or_introl eq_refl) (or_introl eq_refl)) as [He _].
  destruct (unexpected_strategy_unreachable entry 1%nat 1 "a" "b")
    as (Hvalid' & _ & _).
  destruct (Hvalid' (or_introl eq_refl) (or_introl eq_refl)) as [_ Hr].
  destruct (unexpected_strategy_unreachable misconfigured 1%nat 3 "a" "b")
    as (_ & Hw & _).
  destruct (unexpected_strategy_unreachable misconfigured 1%nat 1 "a" "b")
    as (_ & _ & Hn).
  split; [exact He |].
  split; [exact Hr |].
  split.
  - apply (Hw 7); [reflexivity | simpl; lia].
  - apply (Hn 7). reflexivity.
Defined.

Lemma run_protocol_witness :
  driven_by_hooks
  /\ trace_of (run "i" child)
     = [Logger_start_callee (ExtendedContext EmptyContext 5%nat) 1%nat]
       ++ trace_of (FwdFixpointIterator_run "i" child)
       ++ [CallEngine_mark_convergence_achieved]
       ++ [Logger_end_callee (ExtendedContext EmptyContext 5%nat) 1%nat]
  /\ convergence_achieved (_call_exec_engine (state_of (run "i" child)))
     = true
  /\ _post (state_of (run "i" child)) = ∅
  /\ _pre (state_of (run "i" child))
     = _pre (state_of (FwdFixpointIterator_run "i" child))
  /\ Forall (fun e => is_check e = false) (trace_of (run "i" child)).
Proof.
  split; [exact straight_line_driven_by_hooks |].
  exact (run_protocol "i" child straight_line_driven_by_hooks).
Defined.

Lemma run_checks_protocol_witness :
  (ar.statements 1%nat = [1; 2; 3]%nat
   /\ ar.has_frontend 1%nat = true
   /\ ar.has_frontend 2%nat = false
   /\ ar.has_frontend 3%nat = true)
  /\ List.filter is_check (trace_of (run_checks_block 1%nat entry))
     = [Checker_check 7%nat 1%nat "enter1(bottom)" EmptyContext;
        Checker_check 8%nat 1%nat "enter1(bottom)" EmptyContext;
        Checker_check 7%nat 3%nat "exec2(exec1(enter1(bottom)))"
                      EmptyContext;
        Checker_check 8%nat 3%nat "exec2(exec1(enter1(bottom)))"
                      EmptyContext]
  /\ length (List.filter is_check (trace_of (run_checks_block 1%nat entry)))
     = 4%nat.
Proof.
  split; [repeat split |].
  exact (proj2 (run_checks_protocol entry) 1%nat 1%nat 2%nat 3%nat
               eq_refl eq_refl eq_refl eq_refl).
Defined.

Lemma child_construction_witness :
  heap !! 0%nat = Some entry
  /\ exists child_addr child heap',
      construct_child context heap 0%nat 5%nat 1%nat false
      = Some (child_addr, heap')
      /\ heap' !! child_addr = Some child
      /\ _call_context child
         = CallContextFactory.get_context (_call_context entry) 5%nat
      /\ _analyzed_functions child = _analyzed_functions entry ++ [1%nat]
      /\ heap' !! 0%nat = Some entry
      /\ forall a, a <> child_addr -> heap' !! a = heap !! a.
Proof.
  split; [reflexivity |].
  exact (child_construction context heap 0%nat entry 5%nat 1%nat false
                            eq_refl).
Defined.

Lemma is_currently_analyzed_membership_witness :
  (driven_by_hooks /\ active [0%nat] entry)
  /\ is_currently_analyzed child 1%nat = true
  /\ (forall f, f ∈ [0%nat] -> is_currently_analyzed child f = true)
  /\ (forall f, f ∉ [0%nat] -> f <> 1%nat ->
                is_currently_analyzed child f = false).
Proof.
  split; [split; [exact straight_line_driven_by_hooks | constructor] |].
  exact (proj2 (is_currently_analyzed_membership
                  straight_line_driven_by_hooks)
               [0%nat] entry context 5%nat 1%nat false
               (active_entry context [7; 8]%nat 0%nat)).
Defined.

Lemma own_function_analyzed_witness :
  (driven_by_hooks /\ active [0; 1]%nat (state_of (run "i" child)))
  /\ is_currently_analyzed (state_of (run "i" child))
       (_function (state_of (run "i" child))) = true.
Proof.
  assert (Hactive : active [0; 1]%nat (state_of (run "i" child))).
  { apply active_run.
    exact (active_child [0%nat] entry context 5%nat 1%nat false
             (active_entry context [7; 8]%nat 0%nat)). }
  split; [split; [exact straight_line_driven_by_hooks | exact Hactive] |].
  destruct (own_function_analyzed straight_line_driven_by_hooks)
    as (_ & _ & _ & _ & _ & Hown).
  exact (Hown _ _ Hactive).
Defined.

Lemma process_post_not_exit_witness :
  (ar.exit_block_or_null (ar.body (_function child)) = None
   /\ ar.exit_block_or_null (ar.body (_function child)) <> Some 3%nat
   /\ driven_by_hooks)
  /\ process_post 3%nat "p" child = (tt, child, [])
  /\ Forall (fun e => is_exec_exit e = false) (trace_of (run "i" child)).
Proof.
  split.
  { split; [reflexivity |].
    split; [discriminate | exact straight_line_driven_by_hooks]. }
  destruct (process_post_not_exit child) as [Hskip Hnone].
  split.
  - apply Hskip. discriminate.
  - destruct (Hnone eq_refl) as [_ Hrun].
    exact (Hrun straight_line_driven_by_hooks "i").
Defined.


Lemma is_decreasing_iterations_fixpoint_monotone_witness :
  (3 <= 5
   /\ is_decreasing_iterations_fixpoint entry 1%nat 3 "a" "b" = true)
  /\ is_decreasing_iterations_fixpoint entry 1%nat 5 "a" "b" = true.
Proof.
  split; [split; [lia | reflexivity] |].
  apply (is_decreasing_iterations_fixpoint_monotone entry 1%nat 3 5 "a" "b");
    [lia | reflexivity].
Defined.

Lemma no_profile_no_threshold_witness :
  (fixpoint_profiler plain_context = None
   /\ widening_strategy (opts plain_context) = WideningStrategy.Widen
   /\ narrowing_strategy (opts plain_context) = NarrowingStrategy.Narrow
   /\ loop_iterations (opts plain_context) < 3)
  /\ extrapolate plain_entry 1%nat 3 "a" "b" = Returns "widen(a,b)"
  /\ refine plain_entry 1%nat 1 "a" "b" = Returns "narrow(a,b)".
Proof.
  split; [repeat split |].
  destruct (no_profile_no_threshold plain_context 0%nat plain_entry
              (or_introl eq_refl)
              (or_introl (ex_intro _ [7; 8]%nat eq_refl))
              1%nat 3 "a" "b") as [Hw _].
  destruct (no_profile_no_threshold plain_context 0%nat plain_entry
              (or_introl eq_refl)
              (or_introl (ex_intro _ [7; 8]%nat eq_refl))
              1%nat 1 "a" "b") as [_ Hn].
  split; [apply Hw; [reflexivity | simpl; lia] | apply Hn; reflexivity].
Defined.

Lemma passes_callee_notices_witness :
  driven_by_hooks
  /\ List.filter is_callee_notice (trace_of (run "i" child))
     = [Logger_start_callee (ExtendedContext EmptyContext 5%nat) 1%nat;
        Logger_end_callee (ExtendedContext EmptyContext 5%nat) 1%nat]
  /\ List.filter is_callee_notice (trace_of (run_checks child))
     = [Logger_start_callee (ExtendedContext EmptyContext 5%nat) 1%nat;
        Logger_end_callee (ExtendedContext EmptyContext 5%nat) 1%nat].
Proof.
  split; [exact straight_line_driven_by_hooks |].
  exact ((fun d => passes_callee_notices d child
                      straight_line_driven_by_hooks) "i").
Defined.

Lemma exit_effect_own_function_witness :
  driven_by_hooks
  /\ Forall (exits_own entry) (trace_of (run "i" entry))
  /\ List.filter is_exec_exit (trace_of (run "i" entry))
     = [CallEngine_exec_exit 0%nat]
  /\ List.filter is_exec_exit (trace_of (run_checks entry)) = [].
Proof.
  split; [exact straight_line_driven_by_hooks |].
  destruct ((fun d => exit_effect_own_function d entry
                         straight_line_driven_by_hooks) "i")
    as [Hown Hnone].
  split; [exact Hown |]. split; [reflexivity | exact Hnone].
Defined.
